(** * Ext-RESCAL: the ALS factorisation of [rescal.py]

    A shallow embedding of [rescal.py] (RESCAL, alternating least squares
    over a three-way tensor given as a list of frontal slices).

    - Scalars ([float]) are idealised as exact rationals [Q].
    - Matrices ([numpy.ndarray], [scipy.sparse] matrices) are the values of an
      abstract carrier [ndarray]; the routines of numpy and scipy that the
      program calls are the fields of the interface [Numpy].  They are the
      library's operations on operands of conforming shapes.
    - Effects are explicit: every call of a library routine on matrices is
      recorded in the log of operations of the [world], which also holds the
      state of the random generator and of the process clock.  Exceptions are
      the [Raise] results of the monad [M]. *)

From Stdlib Require Import QArith Qabs Qcanon ZArith List String Lia.
From stdpp Require Import gmap strings list fin_maps.

Open Scope Z_scope.
Open Scope Q_scope.

(** ** Library interface *)

(** The library calls on matrices, as they are counted in the log. *)
Inductive op : Type :=
  | OpDot | OpTranspose | OpAdd | OpScale | OpZeros | OpEye | OpKron
  | OpInv | OpPinv | OpQr | OpEigsh | OpRand | OpArray | OpCooMatrix
  | OpNorm | OpDiagonal | OpMultiply | OpSum | OpFlatten | OpReshape
  | OpPower | OpArgmin.

Global Instance op_eq_dec : EqDecision op.
Proof. solve_decision. Defined.

Class Numpy : Type := {
  ndarray : Type;
  (** [M.shape] *)
  shape : ndarray -> Z * Z;
  (** [dot(a, b)] and [a.dot(b)] *)
  dot : ndarray -> ndarray -> ndarray;
  (** [a.T] and [a.transpose()] *)
  transpose : ndarray -> ndarray;
  (** [a + b] *)
  add : ndarray -> ndarray -> ndarray;
  (** [c * a] for a scalar [c] *)
  scale : Q -> ndarray -> ndarray;
  (** [zeros((n, m))] *)
  zeros : Z -> Z -> ndarray;
  (** [eye(n)] *)
  eye : Z -> ndarray;
  (** [kron(a, b)] *)
  kron : ndarray -> ndarray -> ndarray;
  (** [inv(a)]; [None] when numpy raises [LinAlgError] *)
  inv : ndarray -> option ndarray;
  (** [pinv(a)] *)
  pinv : ndarray -> ndarray;
  (** [qr(a)] *)
  qr : ndarray -> ndarray * ndarray;
  (** [eigsh(S, k=rank)]: eigenvalues and eigenvectors; [None] when it raises *)
  eigsh : ndarray -> Z -> option (ndarray * ndarray);
  (** [rand(n, m)] at the given state of the generator *)
  rand : nat -> Z -> Z -> ndarray;
  (** [array(a, dtype=float64)] *)
  array : ndarray -> ndarray;
  (** [coo_matrix((n, m))], the empty sparse matrix *)
  coo_matrix : Z -> Z -> ndarray;
  (** [norm(a)], the Frobenius norm *)
  norm : ndarray -> Q;
  (** [a.diagonal()] *)
  diagonal : ndarray -> list Q;
  (** [a.multiply(b)], entry by entry *)
  multiply : ndarray -> ndarray -> ndarray;
  (** [a.sum()] *)
  msum : ndarray -> Q;
  (** [a.flatten()] *)
  flatten : ndarray -> ndarray;
  (** [a.reshape(n, m)] *)
  reshape : ndarray -> Z -> Z -> ndarray;
  (** [a ** e], entry by entry *)
  power : ndarray -> Z -> ndarray;
  (** [time.clock()] at its n-th reading *)
  clock : nat -> Q
}.

(** ** Exceptions, world and monad *)

Inductive exn : Type :=
  | ValueError (msg : string)
  | TypeError (msg : string)
  | IndexError
  | UnboundLocalError (var : string)
  | LinAlgError
  | EigshError
  | RaisedString (msg : string).

Record world : Type := World {
  draws : nat;          (* calls of [rand] so far *)
  clock_reads : nat;    (* calls of [time.clock] so far *)
  oplog : list op       (* library calls on matrices so far, oldest first *)
}.

Inductive res (A : Type) : Type :=
  | Ok (a : A)
  | Raise (e : exn).
Arguments Ok {A} a.
Arguments Raise {A} e.

Definition M (A : Type) : Type := world -> res A * world.

Definition ret {A} (a : A) : M A := fun w => (Ok a, w).

Definition bind {A B} (m : M A) (k : A -> M B) : M B :=
  fun w => match m w with
           | (Ok a, w') => k a w'
           | (Raise e, w') => (Raise e, w')
           end.

Definition raise {A} (e : exn) : M A := fun w => (Raise e, w).

Notation "x <- c1 ;; c2" := (bind c1 (fun x => c2))
  (at level 20, c1 at level 99, c2 at level 200, only parsing).
Notation "' pat <- c1 ;; c2" :=
  (bind c1 (fun x => match x with pat => c2 end))
  (at level 20, pat pattern, c1 at level 99, c2 at level 200, only parsing).

(** One library call on matrices: it is appended to the log. *)
Definition tick (o : op) : M unit :=
  fun w => (Ok tt, World (draws w) (clock_reads w) (oplog w ++ [o])).

Definition call {A} (o : op) (a : A) : M A := bind (tick o) (fun _ => ret a).

Definition call_opt {A} (o : op) (e : exn) (a : option A) : M A :=
  bind (tick o) (fun _ =>
    match a with
    | Some v => ret v
    | None => raise e
    end).

(** [l[i]] *)
Definition getitem {A} (l : list A) (i : nat) : M A :=
  match l !! i with
  | Some a => ret a
  | None => raise IndexError
  end.

(** [range(n)] *)
Definition range (n : nat) : list nat := seq 0 n.

(** [for i in l: s = body(i, s)] *)
Fixpoint for_in {I S} (l : list I) (body : I -> S -> M S) (s : S) : M S :=
  match l with
  | [] => ret s
  | i :: l' => s' <- body i s ;; for_in l' body s'
  end.

(** [for i in l: s = body(i, s)], where the body may [break]. *)
Fixpoint for_break {I S} (l : list I) (body : I -> S -> M (S * bool)) (s : S)
    : M S :=
  match l with
  | [] => ret s
  | i :: l' =>
      '(s', brk) <- body i s ;;
      if brk then ret s' else for_break l' body s'
  end.

(** [range(n)] and [xrange(n)] for an integer [n]. *)
Definition xrange (n : Z) : list Z := map Z.of_nat (seq 0 (Z.to_nat n)).

(** Python's builtin [sum]: from 0, left to right. *)
Definition pysum (l : list Q) : Q := fold_left Qplus l 0.

(** [a < b] on floats. *)
Definition Qltb (a b : Q) : bool := negb (Qle_bool b a).

(** [numpy.argmin] of a list of floats: the index of the first occurrence of
    the minimum; [None] when the list is empty (numpy raises [ValueError]). *)
Fixpoint argmin_from (best : Q) (ibest i : nat) (l : list Q) : nat :=
  match l with
  | [] => ibest
  | x :: l' =>
      if Qltb x best then argmin_from x i (S i) l'
      else argmin_from best ibest (S i) l'
  end.

Definition argmin (l : list Q) : option nat :=
  match l with
  | [] => None
  | x :: l' => Some (argmin_from x 0 1 l')
  end.

(** ** Keyword arguments *)

(** The values a caller passes in [**kwargs]. *)
Inductive pyval : Type :=
  | PStr (s : string)
  | PBool (b : bool)
  | PInt (z : Z)
  | PFloat (q : Q).

(** [kwargs.pop(key, default)]: the value and the dictionary without the key. *)
Definition pop (key : string) (default : pyval) (kw : gmap string pyval)
    : pyval * gmap string pyval :=
  (match kw !! key with Some v => v | None => default end, delete key kw).

(** [v == s] for a string literal [s]. *)
Definition py_eq_str (v : pyval) (s : string) : bool :=
  match v with
  | PStr t => String.eqb t s
  | _ => false
  end.

(** Truth value of [v] in [if v:]. *)
Definition truthy (v : pyval) : bool :=
  match v with
  | PStr s => negb (String.eqb s "")
  | PBool b => b
  | PInt z => negb (Z.eqb z 0)
  | PFloat q => negb (Qeq_bool q 0)
  end.

(** The number held by [v], as the [%d] and [%e] conversions and float
    arithmetic take it; [None] when [v] is not a number. *)
Definition py_number (v : pyval) : option Q :=
  match v with
  | PStr _ => None
  | PBool b => Some (if b then 1 else 0)
  | PInt z => Some (inject_Z z)
  | PFloat q => Some q
  end.

(** The integer held by [v], as [xrange] takes it; [None] when it raises
    [TypeError]. *)
Definition py_index (v : pyval) : option Z :=
  match v with
  | PBool b => Some (if b then 1 else 0)%Z
  | PInt z => Some z
  | _ => None
  end.

Definition number_or_raise (v : pyval) : M Q :=
  match py_number v with
  | Some q => ret q
  | None => raise (TypeError "a number is required")
  end.

Definition index_or_raise (v : pyval) : M Z :=
  match py_index v with
  | Some z => ret z
  | None => raise (TypeError "integer argument expected")
  end.

(** Module constants. *)
Definition DEF_MAXITER : pyval := PInt 500.
Definition DEF_INIT : pyval := PStr "nvecs".
Definition DEF_PROJ : pyval := PBool true.
Definition DEF_CONV : pyval := PFloat (1 # 100000).
Definition DEF_LMBDA : pyval := PInt 0.

Section Rescal.

Context {np : Numpy}.

(** *** The library calls, logged *)

Definition dot_ (a b : ndarray) : M ndarray := call OpDot (dot a b).
Definition T_ (a : ndarray) : M ndarray := call OpTranspose (transpose a).
Definition add_ (a b : ndarray) : M ndarray := call OpAdd (add a b).
Definition scale_ (c : Q) (a : ndarray) : M ndarray := call OpScale (scale c a).
Definition zeros_ (n m : Z) : M ndarray := call OpZeros (zeros n m).
Definition eye_ (n : Z) : M ndarray := call OpEye (eye n).
Definition kron_ (a b : ndarray) : M ndarray := call OpKron (kron a b).
Definition inv_ (a : ndarray) : M ndarray := call_opt OpInv LinAlgError (inv a).
Definition pinv_ (a : ndarray) : M ndarray := call OpPinv (pinv a).
Definition qr_ (a : ndarray) : M (ndarray * ndarray) := call OpQr (qr a).
Definition eigsh_ (a : ndarray) (k : Z) : M (ndarray * ndarray) :=
  call_opt OpEigsh EigshError (eigsh a k).
Definition array_ (a : ndarray) : M ndarray := call OpArray (array a).
Definition coo_matrix_ (n m : Z) : M ndarray := call OpCooMatrix (coo_matrix n m).
Definition norm_ (a : ndarray) : M Q := call OpNorm (norm a).
Definition diagonal_ (a : ndarray) : M (list Q) := call OpDiagonal (diagonal a).
Definition multiply_ (a b : ndarray) : M ndarray := call OpMultiply (multiply a b).
Definition sum_ (a : ndarray) : M Q := call OpSum (msum a).
Definition flatten_ (a : ndarray) : M ndarray := call OpFlatten (flatten a).
Definition reshape_ (a : ndarray) (n m : Z) : M ndarray :=
  call OpReshape (reshape a n m).
Definition power_ (a : ndarray) (e : Z) : M ndarray := call OpPower (power a e).

Definition rand_ (n m : Z) : M ndarray :=
  fun w => (Ok (rand (draws w) n m),
            World (S (draws w)) (clock_reads w) (oplog w ++ [OpRand])).

Definition clock_ : M Q :=
  fun w => (Ok (clock (clock_reads w)),
            World (draws w) (S (clock_reads w)) (oplog w)).

(** *** [squareFrobeniusNormOfSparse] *)

Definition squareFrobeniusNormOfSparse (m : ndarray) : M Q :=
  mt <- T_ m ;;
  mmt <- dot_ m mt ;;
  d <- diagonal_ mmt ;;
  ret (pysum d).

(** *** [__updateA] *)

Definition updateA (X : list ndarray) (A : ndarray) (R : list ndarray)
    (lmbda : Q) : M ndarray :=
  let '(n, rank) := shape A in
  F <- zeros_ n rank ;;
  E <- zeros_ rank rank ;;
  At <- T_ A ;;
  AtA <- dot_ At A ;;
  '(F, E) <- for_in (range (length X)) (fun i '(F, E) =>
      Ri <- getitem R i ;;
      ar <- dot_ A Ri ;;
      Xi <- getitem X i ;;
      Rit <- T_ Ri ;;
      ARt <- dot_ A Rit ;;
      XARt <- dot_ Xi ARt ;;
      Xit <- T_ Xi ;;
      XtAR <- dot_ Xit ar ;;
      dF <- add_ XARt XtAR ;;
      F <- add_ F dF ;;
      Rit' <- T_ Ri ;;
      AtARt <- dot_ AtA Rit' ;;
      RAtARt <- dot_ Ri AtARt ;;
      Rit'' <- T_ Ri ;;
      AtAR <- dot_ AtA Ri ;;
      RtAtAR <- dot_ Rit'' AtAR ;;
      dE <- add_ RAtARt RtAtAR ;;
      E <- add_ E dE ;;
      ret (F, E)) (F, E) ;;
  I <- eye_ rank ;;
  lI <- scale_ lmbda I ;;
  S <- add_ lI E ;;
  Si <- inv_ S ;;
  dot_ F Si.

(** *** [__updateR] *)

Definition updateR (X : list ndarray) (A : ndarray) (lmbda : Q)
    : M (list ndarray) :=
  let r := snd (shape A) in
  let R := [] in
  At <- T_ A ;;
  if Qeq_bool lmbda 0 then
    AtA <- dot_ At A ;;
    p <- pinv_ AtA ;;
    ainv <- dot_ p At ;;
    for_in (range (length X)) (fun i R =>
        Xi <- getitem X i ;;
        ainvt <- T_ ainv ;;
        Xa <- dot_ Xi ainvt ;;
        Rk <- dot_ ainv Xa ;;
        ret (R ++ [Rk])) R
  else
    AtA <- dot_ At A ;;
    K <- kron_ AtA AtA ;;
    I <- eye_ (r ^ 2)%Z ;;
    lI <- scale_ lmbda I ;;
    S <- add_ K lI ;;
    tmp <- inv_ S ;;
    for_in (range (length X)) (fun i R =>
        Xi <- getitem X i ;;
        XA <- dot_ Xi A ;;
        AtXA <- dot_ At XA ;;
        v <- flatten_ AtXA ;;
        vt <- dot_ v tmp ;;
        Rk <- reshape_ vt r r ;;
        ret (R ++ [Rk])) R.

(** *** [__projectSlices] *)

Definition projectSlices (X : list ndarray) (Q : ndarray) : M (list ndarray) :=
  let q := snd (shape Q) in
  let X2 := [] in
  for_in (range (length X)) (fun i X2 =>
      Qt <- T_ Q ;;
      Xi <- getitem X i ;;
      XQ <- dot_ Xi Q ;;
      P <- dot_ Qt XQ ;;
      ret (X2 ++ [P])) X2.

(** *** [rescal] *)

(** The tuple [rescal] returns. *)
Record result : Type := Result {
  res_A : ndarray;
  res_R : list ndarray;
  res_f : Q;
  res_iter : Z;
  res_exectimes : list Q
}.

(** The variables of [rescal] that the loop assigns. *)
Record als_state : Type := AlsState {
  st_A : ndarray;
  st_R : list ndarray;
  st_f : Q;
  st_fit : Q;
  st_fitold : Q;
  st_fitchange : Q;
  st_exectimes : list Q;
  st_iter : option Z      (* [None] while [iter] is unbound *)
}.

(** [R] from [A]: lines 133-138 and 148-153. *)
Definition solveR (proj : bool) (X : list ndarray) (A : ndarray) (lmbda : Q)
    : M (list ndarray) :=
  if proj then
    '(Q, A2) <- qr_ A ;;
    X2 <- projectSlices X Q ;;
    updateR X2 A2 lmbda
  else
    updateR X A lmbda.

(** One pass through the body of the loop, lines 145-170; the boolean is
    true when the pass ends in [break]. *)
Definition als_body (X Xflat : list ndarray) (normX : list Q) (sumNormX : Q)
    (proj : bool) (conv lmbda : Q) (iter : Z) (st : als_state)
    : M (als_state * bool) :=
  tic <- clock_ ;;
  let fitold := st_fit st in
  A <- updateA X (st_A st) (st_R st) lmbda ;;
  R <- solveR proj X A lmbda ;;
  nA <- norm_ A ;;
  let f := lmbda * (nA ^ 2) in
  f <- for_in (range (length X)) (fun i f =>
      Ri <- getitem R i ;;
      At <- T_ A ;;
      RAt <- dot_ Ri At ;;
      ARAt <- dot_ A RAt ;;
      nXi <- getitem normX i ;;
      nARAt <- norm_ ARAt ;;
      Xi <- getitem Xflat i ;;
      XARAt <- multiply_ Xi ARAt ;;
      s <- sum_ XARAt ;;
      Rf <- flatten_ Ri ;;
      Rf2 <- power_ Rf 2 ;;
      s2 <- sum_ Rf2 ;;
      ret (f + (nXi + nARAt ^ 2 - 2 * s + lmbda * s2))) f ;;
  let f := f * (1 # 2) in
  let fit := 1 - f / sumNormX in
  let fitchange := Qabs (fitold - fit) in
  toc <- clock_ ;;
  let exectimes := st_exectimes st ++ [toc - tic] in
  ret (AlsState A R f fit fitold fitchange exectimes (Some iter),
       (1 <? iter)%Z && Qltb fitchange conv).

Definition rescal (X : list ndarray) (rank : Z) (kwargs : gmap string pyval)
    : M result :=
  let '(ainit, kwargs) := pop "init" DEF_INIT kwargs in
  let '(proj, kwargs) := pop "proj" DEF_PROJ kwargs in
  let '(maxIter, kwargs) := pop "maxIter" DEF_MAXITER kwargs in
  let '(conv, kwargs) := pop "conv" DEF_CONV kwargs in
  let '(lmbda, kwargs) := pop "lmbda" DEF_LMBDA kwargs in
  if negb (Nat.eqb (size kwargs) 0) then
    raise (ValueError "Unknown keywords")
  else
  X0 <- getitem X 0 ;;
  let sz := shape X0 in
  let n := fst sz in
  let k := length X in
  (* the [%d] and [%e] conversions of the logged configuration line *)
  _maxIter <- number_or_raise maxIter ;;
  conv <- number_or_raise conv ;;
  lmbda <- number_or_raise lmbda ;;
  (* precompute norms of X *)
  normX <- for_in X (fun m normX =>
      nm <- squareFrobeniusNormOfSparse m ;;
      ret (normX ++ [nm])) [] ;;
  let Xflat := X in
  let sumNormX := pysum normX in
  (* initialize A *)
  A <- (if py_eq_str ainit "random" then
          a <- rand_ n rank ;;
          array_ a
        else if py_eq_str ainit "nvecs" then
          S <- coo_matrix_ n n ;;
          T <- coo_matrix_ n n ;;
          S <- for_in (range k) (fun i S =>
              T <- getitem X i ;;
              ST <- add_ S T ;;
              Tt <- T_ T ;;
              add_ ST Tt) S ;;
          '(evals, A) <- eigsh_ S rank ;;
          ret A
        else
          raise (RaisedString "Unknown init option")) ;;
  (* initialize R *)
  let proj := truthy proj in
  R <- solveR proj X A lmbda ;;
  (* compute factorization *)
  let st := AlsState A R 0 0 0 0 [] None in
  maxIter <- index_or_raise maxIter ;;
  st <- for_break (xrange maxIter)
          (als_body X Xflat normX sumNormX proj conv lmbda) st ;;
  match st_iter st with
  | None => raise (UnboundLocalError "iter")
  | Some iter =>
      _ <- tick OpArray ;;
      ret (Result (st_A st) (st_R st) (st_f st) (iter + 1)%Z (st_exectimes st))
  end.

(** *** [rescal_with_random_restarts] *)

Definition rescal_with_random_restarts (X : list ndarray) (rank : Z)
    (restarts : Z) (kwargs : gmap string pyval) : M result :=
  '(models, fits) <- for_in (range (Z.to_nat restarts)) (fun i '(models, fits) =>
      res <- (match kwargs !! "init" with
              | Some _ =>
                  raise (TypeError "multiple values for keyword argument 'init'")
              | None => rescal X rank (<["init" := PStr "random"]> kwargs)
              end) ;;
      ret (models ++ [res], fits ++ [res_f res])) ([], []) ;;
  _ <- tick OpArgmin ;;
  match argmin fits with
  | None => raise (ValueError "attempt to get argmin of an empty sequence")
  | Some i => getitem models i
  end.

End Rescal.

(** ** The library on 1x1 matrices

    On 1x1 arrays every routine of the interface is exact over the rationals
    (kept in lowest terms, [Qc]): the product is the product of the entries,
    the transpose is the identity, the QR decomposition of [a] is [1 * a], the
    Frobenius norm is the absolute value.  [eigsh] asks for fewer eigenvectors
    than the dimension, so it always raises here.  The generator's n-th draw
    is [1 / (n + 2)], the clock's n-th reading is [n]. *)

Definition scalar_inv (a : Qc) : option Qc :=
  if Qeq_bool a 0 then None else Some (/ a)%Qc.

Definition scalar_pinv (a : Qc) : Qc :=
  if Qeq_bool a 0 then Q2Qc 0 else (/ a)%Qc.

#[export] Instance Scalar : Numpy := {|
  ndarray := Qc;
  shape := fun _ => (1, 1)%Z;
  dot := Qcmult;
  transpose := fun a => a;
  add := Qcplus;
  scale := fun c a => (Q2Qc c * a)%Qc;
  zeros := fun _ _ => Q2Qc 0;
  eye := fun _ => Q2Qc 1;
  kron := Qcmult;
  inv := scalar_inv;
  pinv := scalar_pinv;
  qr := fun a => (Q2Qc 1, a);
  eigsh := fun _ _ => None;
  rand := fun d _ _ => Q2Qc (1 # Pos.of_nat (d + 2));
  array := fun a => a;
  coo_matrix := fun _ _ => Q2Qc 0;
  norm := fun a => Qabs a;
  diagonal := fun a => [this a];
  multiply := Qcmult;
  msum := this;
  flatten := fun a => a;
  reshape := fun a _ _ => a;
  power := fun a e => Q2Qc (a ^ e);
  clock := fun n => inject_Z (Z.of_nat n)
|}.

Definition w0 : world := World 0 0 [].

(** * Reasoning about runs *)

(** The world after some more library calls. *)
Definition addlog (w : world) (ops : list op) : world :=
  World (draws w) (clock_reads w) (oplog w ++ ops).

Lemma addlog_nil w : addlog w [] = w.
Proof. destruct w; unfold addlog; simpl. by rewrite app_nil_r. Qed.

Lemma addlog_addlog w a b : addlog (addlog w a) b = addlog w (a ++ b).
Proof. unfold addlog; simpl. by rewrite app_assoc. Qed.

Lemma bind_call {A B} (o : op) (a : A) (k : A -> M B) w :
  bind (call o a) k w = k a (addlog w [o]).
Proof. reflexivity. Qed.

Lemma bind_call_opt_some {A B} (o : op) (e : exn) (a : A) (k : A -> M B) w :
  bind (call_opt o e (Some a)) k w = k a (addlog w [o]).
Proof. reflexivity. Qed.

Lemma bind_call_opt_none {A B} (o : op) (e : exn) (k : A -> M B) w :
  bind (call_opt o e None) k w = (Raise e, addlog w [o]).
Proof. reflexivity. Qed.

Lemma bind_bind {A B C} (m : M A) (f : A -> M B) (g : B -> M C) w :
  bind (bind m f) g w = bind m (fun a => bind (f a) g) w.
Proof. unfold bind. by destruct (m w) as [[a|e] w']. Qed.

Lemma bind_ret {A B} (a : A) (k : A -> M B) w : bind (ret a) k w = k a w.
Proof. reflexivity. Qed.

Lemma bind_ok {A B} (m : M A) (k : A -> M B) w a w' :
  m w = (Ok a, w') -> bind m k w = k a w'.
Proof. intros H. unfold bind. by rewrite H. Qed.

Lemma bind_raise {A B} (m : M A) (k : A -> M B) w e w' :
  m w = (Raise e, w') -> bind m k w = (Raise e, w').
Proof. intros H. unfold bind. by rewrite H. Qed.

Lemma bind_inv_ok {A B} (m : M A) (k : A -> M B) w b w'' :
  bind m k w = (Ok b, w'') ->
  exists a w', m w = (Ok a, w') /\ k a w' = (Ok b, w'').
Proof.
  unfold bind. destruct (m w) as [[a|e] w'] eqn:E; intros H.
  - by exists a, w'.
  - discriminate.
Qed.

Lemma getitem_lookup {A} (l : list A) i a w :
  l !! i = Some a -> getitem l i w = (Ok a, w).
Proof. intros H. unfold getitem. by rewrite H. Qed.

Lemma getitem_nth {A} (l : list A) i d w :
  (i < length l)%nat -> getitem l i w = (Ok (nth i l d), w).
Proof.
  intros H. apply getitem_lookup.
  destruct (lookup_lt_is_Some_2 l i H) as [a Ha].
  rewrite Ha. f_equal. symmetry. by apply nth_lookup_Some.
Qed.

(** A loop whose passes all return and log the same calls. *)
Lemma for_in_regular {I S} (l : list I) (body : I -> S -> M S)
    (g : I -> S -> S) (ops : list op) :
  (forall i s w, i ∈ l -> body i s w = (Ok (g i s), addlog w ops)) ->
  forall s w,
    for_in l body s w
    = (Ok (fold_left (fun s i => g i s) l s),
       addlog w (concat (replicate (length l) ops))).
Proof.
  induction l as [|i l IH]; intros Hb s w; simpl.
  - by rewrite addlog_nil.
  - rewrite (bind_ok _ _ _ _ _ (Hb i s w ltac:(left))).
    rewrite IH; [|intros; apply Hb; by right].
    by rewrite addlog_addlog.
Qed.

(** Reading two lists by index over [range(len(X))] is reading them in step. *)
Lemma fold_left_range_zip {A B S} (X : list A) (R : list B) (dA : A) (dB : B)
    (g : A -> B -> S -> S) (s : S) :
  (length X <= length R)%nat ->
  fold_left (fun s i => g (nth i X dA) (nth i R dB) s) (range (length X)) s
  = fold_left (fun s xr => g xr.1 xr.2 s) (zip X R) s.
Proof.
  unfold range. intros Hlen.
  enough (forall (Xp : list A) (Rp : list B) s,
    length Xp = length Rp ->
    fold_left (fun s i => g (nth i (Xp ++ X) dA) (nth i (Rp ++ R) dB) s)
      (seq (length Xp) (length X)) s
    = fold_left (fun s xr => g xr.1 xr.2 s) (zip X R) s) as H.
  { apply (H [] [] s). reflexivity. }
  revert R Hlen. induction X as [|x X IH]; intros R Hlen Xp Rp s' Hp; [done|].
  destruct R as [|r R]; [simpl in Hlen; lia|].
  simpl. rewrite (app_nth2 Xp), Nat.sub_diag by lia.
  rewrite Hp at 2. rewrite (app_nth2 Rp), Nat.sub_diag by lia. simpl.
  specialize (IH R ltac:(simpl in Hlen; lia) (Xp ++ [x]) (Rp ++ [r])
                (g x r s')).
  rewrite !length_app in IH. simpl in IH.
  rewrite <- !app_assoc in IH. simpl in IH.
  rewrite Nat.add_1_r in IH. apply IH. lia.
Qed.

Lemma fold_left_range_nth {A S} (X : list A) (dA : A) (g : A -> S -> S) (s : S) :
  fold_left (fun s i => g (nth i X dA) s) (range (length X)) s
  = fold_left (fun s x => g x s) X s.
Proof.
  rewrite (fold_left_range_zip X X dA dA (fun x _ s => g x s) s) by lia.
  generalize s. induction X as [|x X IH]; intros s'; [done|]. simpl. apply IH.
Qed.

Lemma length_range n : length (range n) = n.
Proof. apply length_seq. Qed.

Lemma elem_of_range i n : i ∈ range n -> (i < n)%nat.
Proof. unfold range. rewrite elem_of_seq. lia. Qed.

Lemma fold_left_pair {A S1 S2} (l : list A) (f1 : S1 -> A -> S1)
    (f2 : S2 -> A -> S2) s1 s2 :
  fold_left (fun s a => (f1 s.1 a, f2 s.2 a)) l (s1, s2)
  = (fold_left f1 l s1, fold_left f2 l s2).
Proof. revert s1 s2. induction l as [|a l IH]; intros; [done|]. simpl. apply IH. Qed.

Lemma fold_left_map {A B S} (l : list A) (h : A -> B) (f : S -> B -> S) s :
  fold_left f (map h l) s = fold_left (fun s a => f s (h a)) l s.
Proof. revert s. induction l as [|a l IH]; intros; [done|]. simpl. apply IH. Qed.

(** ** The log only grows *)

(** [grows m]: running [m] only appends to the log of library calls. *)
Definition grows {A} (m : M A) : Prop :=
  forall w, exists ops, oplog (m w).2 = oplog w ++ ops.

Lemma grows_ret {A} (a : A) : grows (ret a).
Proof. intros w. exists []. simpl. by rewrite app_nil_r. Qed.

Lemma grows_raise {A} (e : exn) : grows (@raise A e).
Proof. intros w. exists []. simpl. by rewrite app_nil_r. Qed.

Lemma grows_bind {A B} (m : M A) (k : A -> M B) :
  grows m -> (forall a, grows (k a)) -> grows (bind m k).
Proof.
  intros Hm Hk w. destruct (Hm w) as [ops1 H1]. unfold bind.
  destruct (m w) as [[a|e] w1]; simpl in *.
  - destruct (Hk a w1) as [ops2 H2]. exists (ops1 ++ ops2).
    by rewrite H2, H1, app_assoc.
  - eauto.
Qed.

Lemma grows_tick (o : op) : grows (tick o).
Proof. intros w. by exists [o]. Qed.

Lemma grows_call {A} (o : op) (a : A) : grows (call o a).
Proof. intros w. by exists [o]. Qed.

Lemma grows_call_opt {A} (o : op) (e : exn) (a : option A) :
  grows (call_opt o e a).
Proof. intros w. exists [o]. by destruct a. Qed.

Lemma grows_getitem {A} (l : list A) (i : nat) : grows (getitem l i).
Proof. unfold getitem. destruct (l !! i); [apply grows_ret|apply grows_raise]. Qed.

Lemma grows_for_in {I S} (l : list I) (body : I -> S -> M S) (s : S) :
  (forall i s, grows (body i s)) -> grows (for_in l body s).
Proof.
  intros Hb. revert s. induction l as [|i l IH]; intros s; simpl.
  - apply grows_ret.
  - apply grows_bind; [apply Hb|apply IH].
Qed.

Lemma grows_for_break {I S} (l : list I) (body : I -> S -> M (S * bool))
    (s : S) :
  (forall i s, grows (body i s)) -> grows (for_break l body s).
Proof.
  intros Hb. revert s. induction l as [|i l IH]; intros s; simpl.
  - apply grows_ret.
  - apply grows_bind; [apply Hb|]. intros [s1 [|]]; [apply grows_ret|apply IH].
Qed.


Lemma grows_rand {np : Numpy} (n m : Z) : grows (rand_ n m).
Proof. intros w. by exists [OpRand]. Qed.

Lemma grows_clock {np : Numpy} : grows clock_.
Proof. intros w. exists []. simpl. by rewrite app_nil_r. Qed.

Ltac grows_step :=
  lazymatch goal with
  | |- grows (ret _) => apply grows_ret
  | |- grows (raise _) => apply grows_raise
  | |- grows (tick _) => apply grows_tick
  | |- grows (call _ _) => apply grows_call
  | |- grows (call_opt _ _ _) => apply grows_call_opt
  | |- grows (getitem _ _) => apply grows_getitem
  | |- grows (rand_ _ _) => apply grows_rand
  | |- grows clock_ => apply grows_clock
  | |- grows (bind _ _) => apply grows_bind; [|intros]
  | |- grows (for_in _ _ _) => apply grows_for_in; intros
  | |- grows (for_break _ _ _) => apply grows_for_break; intros
  | |- grows (match ?x with _ => _ end) => destruct x
  | |- grows _ =>
      progress unfold dot_, T_, add_, scale_, zeros_, eye_, kron_, inv_,
        pinv_, qr_, eigsh_, array_, coo_matrix_, norm_, diagonal_,
        multiply_, sum_, flatten_, reshape_, power_, number_or_raise,
        index_or_raise
  end.

Ltac solve_grows := repeat grows_step.

Lemma grows_updateA {np : Numpy} X A R lmbda : grows (updateA X A R lmbda).
Proof. unfold updateA. solve_grows. Qed.

Lemma grows_solveR {np : Numpy} proj X A lmbda : grows (solveR proj X A lmbda).
Proof. unfold solveR, projectSlices, updateR. solve_grows. Qed.

Lemma grows_squareFrobeniusNormOfSparse {np : Numpy} m :
  grows (squareFrobeniusNormOfSparse m).
Proof. unfold squareFrobeniusNormOfSparse. solve_grows. Qed.

Ltac grows_fun :=
  lazymatch goal with
  | |- grows (updateA _ _ _ _) => apply grows_updateA
  | |- grows (solveR _ _ _ _) => apply grows_solveR
  | |- grows (squareFrobeniusNormOfSparse _) =>
      apply grows_squareFrobeniusNormOfSparse
  end.

Lemma grows_als_body {np : Numpy} X Xflat normX sumNormX proj conv lmbda iter st :
  grows (als_body X Xflat normX sumNormX proj conv lmbda iter st).
Proof. unfold als_body. repeat first [grows_fun|grows_step]. Qed.

(** Whatever the arguments, a call of [rescal] only appends to the log. *)
Lemma grows_rescal {np : Numpy} X rank kwargs : grows (rescal X rank kwargs).
Proof.
  unfold rescal, pop. cbv beta iota zeta.
  repeat first
    [ grows_fun
    | lazymatch goal with
      | |- grows (als_body _ _ _ _ _ _ _ _ _) => apply grows_als_body
      end
    | grows_step ].
Qed.



Section RescalFacts.

Context {np : Numpy}.

(** ** The factor solver *)

(** The sum of a list of matrices onto a zero matrix, in list order. *)
Definition matrix_sum (zero : ndarray) (terms : list ndarray) : ndarray :=
  fold_left add terms zero.

(** One relation's term of F: [X_k (A R_k^T) + X_k^T (A R_k)]. *)
Definition F_term (A Xk Rk : ndarray) : ndarray :=
  add (dot Xk (dot A (transpose Rk))) (dot (transpose Xk) (dot A Rk)).

(** One relation's term of E: [R_k (A^T A) R_k^T + R_k^T (A^T A) R_k]. *)
Definition E_term (A Rk : ndarray) : ndarray :=
  add (dot Rk (dot (dot (transpose A) A) (transpose Rk)))
      (dot (transpose Rk) (dot (dot (transpose A) A) Rk)).

(** F and E: the sums of the terms over the relations. *)
Definition F_of (X : list ndarray) (A : ndarray) (R : list ndarray) : ndarray :=
  matrix_sum (zeros (shape A).1 (shape A).2)
    (map (fun xr => F_term A xr.1 xr.2) (zip X R)).

Definition E_of (X : list ndarray) (A : ndarray) (R : list ndarray) : ndarray :=
  matrix_sum (zeros (shape A).2 (shape A).2)
    (map (fun xr : ndarray * ndarray => E_term A xr.2) (zip X R)).

Definition updateA_pass_ops : list op :=
  [OpDot; OpTranspose; OpDot; OpDot; OpTranspose; OpDot; OpAdd; OpAdd;
   OpTranspose; OpDot; OpDot; OpTranspose; OpDot; OpDot; OpAdd; OpAdd].

Lemma updateA_run (X : list ndarray) (A : ndarray) (R : list ndarray)
    (lmbda : Q) (w : world) :
  (length X <= length R)%nat ->
  updateA X A R lmbda w
  = match inv_ (add (scale lmbda (eye (shape A).2)) (E_of X A R))
            (addlog w ([OpZeros; OpZeros; OpTranspose; OpDot]
                       ++ concat (replicate (length X) updateA_pass_ops)
                       ++ [OpEye; OpScale; OpAdd]))
    with
    | (Ok Si, w') => (Ok (dot (F_of X A R) Si), addlog w' [OpDot])
    | (Raise e, w') => (Raise e, w')
    end.
Proof.
  intros Hlen. unfold updateA.
  destruct (shape A) as [n rank] eqn:Hs.
  unfold zeros_, T_, dot_ at 1. rewrite !bind_call.
  erewrite bind_ok; cycle 1.
  { apply (for_in_regular _ _
      (fun i FE =>
         (add FE.1 (F_term A (nth i X A) (nth i R A)),
          add FE.2 (E_term A (nth i R A))))
      updateA_pass_ops).
    intros i [F E] w1 Hi. apply elem_of_range in Hi.
    rewrite (bind_ok _ _ _ _ _ (getitem_nth R i A w1 ltac:(lia))).
    unfold dot_, T_, add_. rewrite bind_call.
    rewrite (bind_ok _ _ _ _ _ (getitem_nth X i A _ Hi)).
    rewrite !bind_call. unfold ret. rewrite !addlog_addlog. reflexivity. }
  rewrite (fold_left_range_zip X R A A
             (fun x r FE => (add FE.1 (F_term A x r), add FE.2 (E_term A r))))
    by done.
  rewrite (fold_left_pair (zip X R)
             (fun F xr => add F (F_term A xr.1 xr.2))
             (fun E xr => add E (E_term A xr.2))).
  unfold eye_, scale_, add_. rewrite !bind_call, !addlog_addlog.
  unfold F_of, E_of, matrix_sum. rewrite Hs, !fold_left_map. simpl.
  unfold bind. unfold dot_. simpl. rewrite length_range.
  destruct (inv_ _ _) as [[Si|e] w']; reflexivity.
Qed.

(** C1. One step of the factor solver returns [F (lmbda I + E)^-1], where F
    is the sum over the relations of [X_k (A R_k^T) + X_k^T (A R_k)] and E the
    sum over the relations of [R_k (A^T A) R_k^T + R_k^T (A^T A) R_k]; [R]
    holds a core matrix for each slice and the inverse exists. *)
Theorem updateA_solves (X : list ndarray) (A : ndarray) (R : list ndarray)
    (lmbda : Q) (w : world) (Sinv : ndarray) :
  (length X <= length R)%nat ->
  inv (add (scale lmbda (eye (shape A).2)) (E_of X A R)) = Some Sinv ->
  exists w', updateA X A R lmbda w = (Ok (dot (F_of X A R) Sinv), w').
Proof.
  intros Hlen Hinv. rewrite updateA_run by done.
  unfold inv_, call_opt. rewrite Hinv. simpl. eauto.
Qed.

(** When the matrix is singular the step raises instead. *)
Lemma updateA_singular (X : list ndarray) (A : ndarray) (R : list ndarray)
    (lmbda : Q) (w : world) :
  (length X <= length R)%nat ->
  inv (add (scale lmbda (eye (shape A).2)) (E_of X A R)) = None ->
  exists w', updateA X A R lmbda w = (Raise LinAlgError, w').
Proof.
  intros Hlen Hinv. rewrite updateA_run by done.
  unfold inv_, call_opt. rewrite Hinv. simpl. eauto.
Qed.

(** ** The core solver *)

Lemma fold_left_snoc_map {A B} (h : A -> B) (l : list A) (acc : list B) :
  fold_left (fun acc x => acc ++ [h x]) l acc = acc ++ map h l.
Proof.
  revert acc. induction l as [|x l IH]; intros acc; simpl.
  - by rewrite app_nil_r.
  - rewrite IH. by rewrite <- app_assoc.
Qed.

Lemma count_occ_concat_replicate (ops : list op) (o : op) (n : nat) :
  count_occ op_eq_dec (concat (replicate n ops)) o
  = (n * count_occ op_eq_dec ops o)%nat.
Proof.
  induction n as [|n IH]; [done|]. simpl. rewrite count_occ_app, IH. lia.
Qed.

(** [ainv = pinv(A^T A) A^T] *)
Definition ainv_of (A : ndarray) : ndarray :=
  dot (pinv (dot (transpose A) A)) (transpose A).

(** The matrix inverted when [lmbda] is not 0: [(A^T A) (x) (A^T A) + lmbda I]. *)
Definition kron_system (A : ndarray) (lmbda : Q) : ndarray :=
  add (kron (dot (transpose A) A) (dot (transpose A) A))
      (scale lmbda (eye ((shape A).2 ^ 2)%Z)).

(** One relation's core matrix from the inverse [tmp] of that matrix. *)
Definition R_regularized (A tmp Xk : ndarray) : ndarray :=
  reshape (dot (flatten (dot (transpose A) (dot Xk A))) tmp)
    (shape A).2 (shape A).2.

Lemma updateR_run_zero (X : list ndarray) (A : ndarray) (lmbda : Q) (w : world) :
  Qeq_bool lmbda 0 = true ->
  updateR X A lmbda w
  = (Ok (map (fun Xk => dot (ainv_of A) (dot Xk (transpose (ainv_of A)))) X),
     addlog w ([OpTranspose; OpDot; OpPinv; OpDot]
               ++ concat (replicate (length X) [OpTranspose; OpDot; OpDot]))).
Proof.
  intros Hl. unfold updateR. unfold T_ at 1. rewrite bind_call, Hl.
  unfold dot_ at 1 2, pinv_. rewrite !bind_call.
  rewrite (for_in_regular _ _
    (fun i R => R ++ [dot (ainv_of A) (dot (nth i X A) (transpose (ainv_of A)))])
    [OpTranspose; OpDot; OpDot]).
  - rewrite (fold_left_range_nth X A
      (fun x R => R ++ [dot (ainv_of A) (dot x (transpose (ainv_of A)))])).
    rewrite fold_left_snoc_map, length_range, !addlog_addlog. reflexivity.
  - intros i R w1 Hi. apply elem_of_range in Hi.
    rewrite (bind_ok _ _ _ _ _ (getitem_nth X i A w1 Hi)).
    unfold T_, dot_. rewrite !bind_call. unfold ret.
    rewrite !addlog_addlog. reflexivity.
Qed.

Lemma updateR_run_reg (X : list ndarray) (A : ndarray) (lmbda : Q) (w : world) :
  Qeq_bool lmbda 0 = false ->
  updateR X A lmbda w
  = match inv (kron_system A lmbda) with
    | Some tmp =>
        (Ok (map (R_regularized A tmp) X),
         addlog w ([OpTranspose; OpDot; OpKron; OpEye; OpScale; OpAdd; OpInv]
                   ++ concat (replicate (length X)
                                [OpDot; OpDot; OpFlatten; OpDot; OpReshape])))
    | None =>
        (Raise LinAlgError,
         addlog w [OpTranspose; OpDot; OpKron; OpEye; OpScale; OpAdd; OpInv])
    end.
Proof.
  intros Hl. unfold updateR. unfold T_ at 1. rewrite bind_call, Hl.
  unfold dot_ at 1, kron_, eye_, scale_, add_. rewrite !bind_call.
  unfold inv_. fold (kron_system A lmbda).
  destruct (inv (kron_system A lmbda)) as [tmp|] eqn:Hinv.
  - rewrite bind_call_opt_some.
    rewrite (for_in_regular _ _
      (fun i R => R ++ [R_regularized A tmp (nth i X A)])
      [OpDot; OpDot; OpFlatten; OpDot; OpReshape]).
    + rewrite (fold_left_range_nth X A (fun x R => R ++ [R_regularized A tmp x])).
      rewrite fold_left_snoc_map, length_range, !addlog_addlog. reflexivity.
    + intros i R w1 Hi. apply elem_of_range in Hi.
      rewrite (bind_ok _ _ _ _ _ (getitem_nth X i A w1 Hi)).
      unfold dot_, flatten_, reshape_. rewrite !bind_call. unfold ret.
      rewrite !addlog_addlog. reflexivity.
  - rewrite bind_call_opt_none, !addlog_addlog. reflexivity.
Qed.

Lemma Qeq_bool_pos (lmbda : Q) : 0 < lmbda -> Qeq_bool lmbda 0 = false.
Proof.
  intros Hpos. destruct (Qeq_bool lmbda 0) eqn:E; [|done].
  apply Qeq_bool_iff in E. rewrite E in Hpos. by apply Qlt_irrefl in Hpos.
Qed.

(** C2. With [lmbda = 0] the core solver computes [ainv = pinv(A^T A) A^T]
    once, whatever the number of relations, and returns the list of the
    [ainv X_k ainv^T], one for each slice, in the order of the slices. *)
Theorem updateR_unregularized (X : list ndarray) (A : ndarray) (lmbda : Q)
    (w : world) :
  lmbda == 0 ->
  exists w' ops,
    updateR X A lmbda w
    = (Ok (map (fun Xk => dot (ainv_of A) (dot Xk (transpose (ainv_of A)))) X),
       w')
    /\ oplog w' = oplog w ++ ops
    /\ count_occ op_eq_dec ops OpPinv = 1%nat.
Proof.
  intros Hl. apply Qeq_bool_iff in Hl.
  eexists _, _. split; [by apply updateR_run_zero|]. split; [reflexivity|].
  rewrite count_occ_app, count_occ_concat_replicate. simpl. lia.
Qed.

(** C3. With [lmbda > 0] the core solver forms [(A^T A) (x) (A^T A) + lmbda I]
    of dimension [r^2] and inverts it once, outside the loop over the
    relations; each [R_k] is the flattened [A^T X_k A] times that inverse,
    reshaped to [r x r]. *)
Theorem updateR_regularized (X : list ndarray) (A : ndarray) (lmbda : Q)
    (w : world) (tmp : ndarray) :
  0 < lmbda ->
  inv (kron_system A lmbda) = Some tmp ->
  exists w' ops,
    updateR X A lmbda w = (Ok (map (R_regularized A tmp) X), w')
    /\ oplog w' = oplog w ++ ops
    /\ count_occ op_eq_dec ops OpKron = 1%nat
    /\ count_occ op_eq_dec ops OpInv = 1%nat.
Proof.
  intros Hl Hinv. apply Qeq_bool_pos in Hl.
  eexists _, _. split; [rewrite updateR_run_reg, Hinv by done; reflexivity|].
  split; [reflexivity|].
  rewrite !count_occ_app, !count_occ_concat_replicate. simpl. lia.
Qed.

End RescalFacts.

(** ** The projection step *)

Section Projection.

Context {np : Numpy}.

Lemma projectSlices_run (X : list ndarray) (Q : ndarray) (w : world) :
  projectSlices X Q w
  = (Ok (map (fun Xk => dot (transpose Q) (dot Xk Q)) X),
     addlog w (concat (replicate (length X) [OpTranspose; OpDot; OpDot]))).
Proof.
  unfold projectSlices.
  rewrite (for_in_regular _ _
    (fun i X2 => X2 ++ [dot (transpose Q) (dot (nth i X Q) Q)])
    [OpTranspose; OpDot; OpDot]).
  - rewrite (fold_left_range_nth X Q
      (fun x X2 => X2 ++ [dot (transpose Q) (dot x Q)])).
    by rewrite fold_left_snoc_map, length_range.
  - intros i X2 w1 Hi. apply elem_of_range in Hi.
    unfold T_. rewrite bind_call.
    rewrite (bind_ok _ _ _ _ _ (getitem_nth X i Q _ Hi)).
    unfold dot_. rewrite !bind_call. unfold ret.
    by rewrite !addlog_addlog.
Qed.

(** The algebra of matrices that the equivalence rests on. *)
Hypothesis dot_assoc : forall a b c, dot (dot a b) c = dot a (dot b c).
Hypothesis transpose_dot :
  forall a b, transpose (dot a b) = dot (transpose b) (transpose a).
Hypothesis transpose_involutive : forall a, transpose (transpose a) = a.
Hypothesis dot_eye_l : forall n a, dot (eye n) a = a.

(** [A = Qm A2] is the QR decomposition of [A]: the columns of [Qm] are
    orthonormal and [A2] is square of the width of [A]. *)
Variables A Qm A2 : ndarray.
Hypothesis qr_A : qr A = (Qm, A2).
Hypothesis qr_factors : A = dot Qm A2.
Hypothesis qr_orthonormal : dot (transpose Qm) Qm = eye (shape A).2.
Hypothesis qr_width : (shape A2).2 = (shape A).2.






End Projection.

(** ** The driver: options *)

(** The keys [rescal] pops from its keyword arguments. *)
Definition recognised : list string := ["init"; "proj"; "maxIter"; "conv"; "lmbda"].

(** The value [rescal] takes for an option. *)
Definition kwarg (key : string) (default : pyval) (kw : gmap string pyval)
    : pyval :=
  match kw !! key with Some v => v | None => default end.

(** What is left of the keyword arguments after the five [pop]s. *)
Definition leftover (kw : gmap string pyval) : gmap string pyval :=
  delete "lmbda" (delete "conv" (delete "maxIter" (delete "proj"
    (delete "init" kw)))).

Lemma leftover_lookup (kw : gmap string pyval) (k : string) :
  k ∉ recognised -> leftover kw !! k = kw !! k.
Proof.
  unfold recognised, leftover. intros Hk.
  rewrite !lookup_delete_ne; [done|..]; intros <-; apply Hk; set_solver.
Qed.

Lemma leftover_unknown (kw : gmap string pyval) (k : string) :
  is_Some (kw !! k) -> k ∉ recognised -> Nat.eqb (size (leftover kw)) 0 = false.
Proof.
  intros [v Hv] Hk. apply Nat.eqb_neq. intros Hsz.
  apply map_size_empty_iff in Hsz.
  rewrite <- (leftover_lookup kw k Hk), Hsz in Hv. by rewrite lookup_empty in Hv.
Qed.

Section Driver.

Context {np : Numpy}.

(** C7. With a key among the keyword arguments that [rescal] does not
    recognise, the call raises [ValueError] and leaves the world as it was: no
    library call on matrices, no draw, no reading of the clock. *)
Theorem rescal_unknown_keyword (X : list ndarray) (rank : Z)
    (kwargs : gmap string pyval) (k : string) (w : world) :
  is_Some (kwargs !! k) ->
  k ∉ recognised ->
  rescal X rank kwargs w = (Raise (ValueError "Unknown keywords"), w).
Proof.
  intros Hk Hun. unfold rescal, pop. cbv beta iota zeta.
  fold (leftover kwargs). by rewrite (leftover_unknown kwargs k Hk Hun).
Qed.

Lemma number_or_raise_ok (v : pyval) (q : Q) (w w' : world) :
  number_or_raise v w = (Ok q, w') -> py_number v = Some q /\ w' = w.
Proof.
  unfold number_or_raise. destruct (py_number v); inversion 1; by subst.
Qed.

Lemma index_or_raise_ok (v : pyval) (z : Z) (w w' : world) :
  index_or_raise v w = (Ok z, w') -> py_index v = Some z /\ w' = w.
Proof.
  unfold index_or_raise. destruct (py_index v); inversion 1; by subst.
Qed.

(** Unfold [rescal] and name the options it has popped. *)
Ltac open_rescal kwargs :=
  unfold rescal, pop; cbv beta iota zeta;
  rewrite !lookup_delete_ne by done;
  repeat match goal with
  | |- context [match kwargs !! ?k with Some v => v | None => ?d end] =>
      change (match kwargs !! k with Some v => v | None => d end)
        with (kwarg k d kwargs)
  end;
  fold (leftover kwargs).

(** The calls of [rescal] that return: the options are read, the loop runs
    from the initial state and ends with [iter] bound. *)
Lemma rescal_ok_inv (X : list ndarray) (rank : Z)
    (kwargs : gmap string pyval) (w : world) (r : result) (w' : world) :
  rescal X rank kwargs w = (Ok r, w') ->
  exists (m : Z) (conv lmbda : Q) (normX : list Q) (A0 : ndarray)
         (R0 : list ndarray) (wi : world) (st : als_state) (wl : world)
         (it : Z),
    py_index (kwarg "maxIter" DEF_MAXITER kwargs) = Some m
    /\ py_number (kwarg "conv" DEF_CONV kwargs) = Some conv
    /\ py_number (kwarg "lmbda" DEF_LMBDA kwargs) = Some lmbda
    /\ for_break (xrange m)
         (als_body X X normX (pysum normX)
            (truthy (kwarg "proj" DEF_PROJ kwargs)) conv lmbda)
         (AlsState A0 R0 0 0 0 0 [] None) wi
       = (Ok st, wl)
    /\ st_iter st = Some it
    /\ r = Result (st_A st) (st_R st) (st_f st) (it + 1)%Z (st_exectimes st)
    /\ w' = addlog wl [OpArray].
Proof.
  open_rescal kwargs.
  destruct (negb _); [discriminate|].
  intros H.
  apply bind_inv_ok in H as (X0 & w1 & _ & H).
  apply bind_inv_ok in H as (_q & w2 & _ & H).
  apply bind_inv_ok in H as (conv & w3 & Hconv & H).
  apply number_or_raise_ok in Hconv as [Hconv _].
  apply bind_inv_ok in H as (lmbda & w4 & Hlmbda & H).
  apply number_or_raise_ok in Hlmbda as [Hlmbda _].
  apply bind_inv_ok in H as (normX & w5 & _ & H).
  apply bind_inv_ok in H as (A0 & w6 & _ & H).
  apply bind_inv_ok in H as (R0 & w7 & _ & H).
  apply bind_inv_ok in H as (m & w8 & Hm & H).
  apply index_or_raise_ok in Hm as [Hm ->].
  apply bind_inv_ok in H as (st & wl & Hloop & H).
  destruct (st_iter st) as [it|] eqn:Hit; [|discriminate].
  inversion H; subst.
  exists m, conv, lmbda, normX, A0, R0, w7, st, wl, it.
  repeat split; done.
Qed.

(** ** The driver: the loop *)

(** [passes body l s w s' w']: from state [s] in world [w], the passes of
    the loop for the indices [l] all complete without [break] and leave
    state [s'] in world [w']. *)
Inductive passes {I S} (body : I -> S -> M (S * bool))
    : list I -> S -> world -> S -> world -> Prop :=
  | passes_nil s w : passes body [] s w s w
  | passes_cons i l s w s1 w1 s2 w2 :
      body i s w = (Ok (s1, false), w1) ->
      passes body l s1 w1 s2 w2 ->
      passes body (i :: l) s w s2 w2.

Lemma for_break_inv {I S} (body : I -> S -> M (S * bool)) (l : list I)
    (s : S) (w : world) (s' : S) (w' : world) :
  for_break l body s w = (Ok s', w') ->
  (l = [] /\ s' = s /\ w' = w)
  \/ exists pre i post sp wp brk,
       l = pre ++ i :: post
       /\ passes body pre s w sp wp
       /\ body i sp wp = (Ok (s', brk), w')
       /\ (brk = true \/ post = []).
Proof.
  revert s w. induction l as [|i l IH]; intros s w H.
  - left. inversion H. done.
  - right. simpl in H.
    apply bind_inv_ok in H as ([s1 brk] & w1 & Hb & H).
    destruct brk.
    + inversion H; subst.
      exists [], i, l, s, w, true. repeat split; [constructor|done|by left].
    + apply IH in H as [(-> & -> & ->)|(pre & j & post & sp & wp & brk & -> & Hp & Hj & Hbrk)].
      * exists [], i, [], s, w, false. repeat split; [constructor|done|by right].
      * exists (i :: pre), j, post, sp, wp, brk.
        repeat split; [econstructor; eauto|done|done].
Qed.

Lemma xrange_nonpos (m : Z) : (m <= 0)%Z -> xrange m = [].
Proof. intros H. unfold xrange. by replace (Z.to_nat m) with 0%nat by lia. Qed.

Lemma xrange_split (m : Z) (pre : list Z) (i : Z) (post : list Z) :
  xrange m = pre ++ i :: post ->
  pre = xrange i /\ (0 <= i < m)%Z /\ (post = [] <-> (i + 1)%Z = m).
Proof.
  unfold xrange. intros H.
  assert (Hlen : (length pre + 1 + length post)%nat = Z.to_nat m).
  { apply (f_equal length) in H.
    rewrite length_map, length_seq, length_app in H. simpl in H. lia. }
  assert (Hi : i = Z.of_nat (length pre)).
  { apply (f_equal (fun l => l !! length pre)) in H.
    rewrite list_lookup_fmap, lookup_seq_lt in H by lia.
    rewrite lookup_app_r, Nat.sub_diag in H by lia. simpl in H.
    inversion H. done. }
  subst i. rewrite Nat2Z.id. split; [|split].
  - apply (f_equal (take (length pre))) in H.
    rewrite take_app_length, <- fmap_take, take_seq in H.
    rewrite <- H at 1. do 2 f_equal. lia.
  - lia.
  - split.
    + intros ->. simpl in Hlen. lia.
    + intros Hm. destruct post; [done|]. simpl in Hlen. lia.
Qed.

Lemma for_break_xrange_inv {S} (body : Z -> S -> M (S * bool)) (m : Z)
    (s : S) (w : world) (s' : S) (w' : world) :
  for_break (xrange m) body s w = (Ok s', w') ->
  ((m <= 0)%Z /\ s' = s /\ w' = w)
  \/ exists it sp wp brk,
       (0 <= it < m)%Z
       /\ passes body (xrange it) s w sp wp
       /\ body it sp wp = (Ok (s', brk), w')
       /\ (brk = true \/ (it + 1)%Z = m).
Proof.
  intros H. apply for_break_inv in H
    as [(Hnil & -> & ->)|(pre & i & post & sp & wp & brk & Hl & Hp & Hb & Hbrk)].
  - left. split; [|done]. unfold xrange in Hnil.
    apply (f_equal length) in Hnil. rewrite length_map, length_seq in Hnil.
    simpl in Hnil. lia.
  - right. apply xrange_split in Hl as (-> & Hi & Hpost).
    exists i, sp, wp, brk. repeat split; try done; try lia.
    destruct Hbrk as [?|?]; [by left|right; by apply Hpost].
Qed.

(** What one pass of the loop leaves in the state. *)
Lemma als_body_inv (X Xflat : list ndarray) (normX : list Q) (sumNormX : Q)
    (proj : bool) (conv lmbda : Q) (iter : Z) (st : als_state) (w : world)
    (st' : als_state) (brk : bool) (w' : world) :
  als_body X Xflat normX sumNormX proj conv lmbda iter st w
  = (Ok (st', brk), w') ->
  st_iter st' = Some iter
  /\ st_fitold st' = st_fit st
  /\ st_fitchange st' = Qabs (st_fitold st' - st_fit st')
  /\ brk = (1 <? iter)%Z && Qltb (st_fitchange st') conv
  /\ length (st_exectimes st') = Datatypes.S (length (st_exectimes st)).
Proof.
  unfold als_body. intros H.
  apply bind_inv_ok in H as (tic & w1 & _ & H).
  apply bind_inv_ok in H as (A & w2 & _ & H).
  apply bind_inv_ok in H as (R & w3 & _ & H).
  apply bind_inv_ok in H as (nA & w4 & _ & H).
  apply bind_inv_ok in H as (f & w5 & _ & H).
  apply bind_inv_ok in H as (toc & w6 & _ & H).
  inversion H; subst; simpl.
  rewrite length_app. simpl. repeat split; try done. lia.
Qed.

Lemma Qltb_lt (a b : Q) : Qltb a b = true -> a < b.
Proof.
  unfold Qltb. intros H. apply negb_true_iff in H.
  apply Qnot_le_lt. intros Hle. apply Qle_bool_iff in Hle. congruence.
Qed.


Lemma bind_rand {B} (n m : Z) (k : ndarray -> M B) (w : world) :
  bind (rand_ n m) k w
  = k (rand (draws w) n m)
      (World (S (draws w)) (clock_reads w) (oplog w ++ [OpRand])).
Proof. reflexivity. Qed.

(** Each completed pass appends one execution time. *)
Lemma passes_exectimes (X Xflat : list ndarray) (normX : list Q) (sumNormX : Q)
    (proj : bool) (conv lmbda : Q) (l : list Z) (s : als_state) (w : world)
    (s' : als_state) (w' : world) :
  passes (als_body X Xflat normX sumNormX proj conv lmbda) l s w s' w' ->
  length (st_exectimes s') = (length (st_exectimes s) + length l)%nat.
Proof.
  induction 1 as [|i l s w s1 w1 s2 w2 Hb _ IH]; simpl; [lia|].
  apply als_body_inv in Hb as (_ & _ & _ & _ & Hlen). lia.
Qed.

Lemma length_xrange (m : Z) : length (xrange m) = Z.to_nat m.
Proof. unfold xrange. by rewrite length_map, length_seq. Qed.

(** The slice norms: one transpose, product and diagonal for each slice. *)
Definition norm_ops (X : list ndarray) : list op :=
  concat (replicate (length X) [OpTranspose; OpDot; OpDiagonal]).

Lemma norms_run (X : list ndarray) (w : world) :
  for_in X (fun m normX =>
      nm <- squareFrobeniusNormOfSparse m ;; ret (normX ++ [nm])) [] w
  = (Ok (map (fun m => pysum (diagonal (dot m (transpose m)))) X),
     addlog w (norm_ops X)).
Proof.
  rewrite (for_in_regular _ _
    (fun m normX => normX ++ [pysum (diagonal (dot m (transpose m)))])
    [OpTranspose; OpDot; OpDiagonal]).
  - by rewrite fold_left_snoc_map.
  - intros m normX w1 _. unfold squareFrobeniusNormOfSparse, T_.
    unfold bind at 1. rewrite bind_call. unfold dot_, diagonal_.
    rewrite !bind_call. unfold ret. by rewrite !addlog_addlog.
Qed.

(** With [lmbda == 0] the core matrices are always computed: [pinv] does
    not raise. *)
Lemma solveR_zero_total (proj : bool) (X : list ndarray) (A : ndarray)
    (lmbda : Q) (w : world) :
  Qeq_bool lmbda 0 = true ->
  exists R w', solveR proj X A lmbda w = (Ok R, w').
Proof.
  intros Hl. unfold solveR. destruct proj.
  - unfold qr_. rewrite bind_call. destruct (qr A) as [Qm A2].
    rewrite (bind_ok _ _ _ _ _ (projectSlices_run X Qm _)).
    rewrite updateR_run_zero by done. eauto.
  - rewrite updateR_run_zero by done. eauto.
Qed.

Lemma leftover_recognised (kw : gmap string pyval) :
  (forall k, is_Some (kw !! k) -> k ∈ recognised) ->
  Nat.eqb (size (leftover kw)) 0 = true.
Proof.
  intros Hk. apply Nat.eqb_eq, map_size_empty_iff, map_empty. intros k.
  destruct (leftover kw !! k) as [v|] eqn:Hv; [|done]. exfalso.
  assert (Hin : k ∈ recognised).
  { apply Hk. unfold leftover in Hv.
    repeat (apply lookup_delete_Some in Hv as [_ Hv]). eauto. }
  unfold leftover, recognised in *.
  repeat (apply lookup_delete_Some in Hv as [? Hv]). set_solver.
Qed.

(** C10. A call of [rescal] returns only with [maxIter >= 1]: the returned
    count of iterations is at least 1, at most [maxIter], and is the number of
    the passes made (one execution time for each).  With [maxIter <= 0] the
    call raises; when the options are recognised and numbers, [init] is
    ['random'], [lmbda] is 0 and there is a slice, what it raises is the
    [UnboundLocalError] of [iter] in the [return] statement. *)
Theorem rescal_returns_after_a_pass (X : list ndarray) (rank : Z)
    (kwargs : gmap string pyval) (w : world) :
  (forall r w', rescal X rank kwargs w = (Ok r, w') ->
     exists m, py_index (kwarg "maxIter" DEF_MAXITER kwargs) = Some m
       /\ (1 <= m)%Z /\ (1 <= res_iter r <= m)%Z
       /\ Z.of_nat (length (res_exectimes r)) = res_iter r)
  /\ (forall m, py_index (kwarg "maxIter" DEF_MAXITER kwargs) = Some m ->
       (m <= 0)%Z ->
       exists e w', rescal X rank kwargs w = (Raise e, w'))
  /\ (forall m conv lmbda,
       py_index (kwarg "maxIter" DEF_MAXITER kwargs) = Some m ->
       (m <= 0)%Z ->
       X <> [] ->
       (forall k, is_Some (kwargs !! k) -> k ∈ recognised) ->
       kwargs !! "init" = Some (PStr "random") ->
       py_number (kwarg "conv" DEF_CONV kwargs) = Some conv ->
       py_number (kwarg "lmbda" DEF_LMBDA kwargs) = Some lmbda ->
       lmbda == 0 ->
       exists w', rescal X rank kwargs w = (Raise (UnboundLocalError "iter"), w')).
Proof.
  assert (Hret : forall r w', rescal X rank kwargs w = (Ok r, w') ->
     exists m, py_index (kwarg "maxIter" DEF_MAXITER kwargs) = Some m
       /\ (1 <= m)%Z /\ (1 <= res_iter r <= m)%Z
       /\ Z.of_nat (length (res_exectimes r)) = res_iter r).
  { intros r w' H.
    apply rescal_ok_inv in H
      as (m & conv & lmbda & normX & A0 & R0 & wi & st & wl & it
          & Hm & _ & _ & Hloop & Hit & -> & _).
    apply for_break_xrange_inv in Hloop
      as [(_ & -> & _)|(j & sp & wp & brk & Hj & Hp & Hb & _)];
      [discriminate|].
    pose proof (als_body_inv _ _ _ _ _ _ _ _ _ _ _ _ _ Hb)
      as (Hiter & _ & _ & _ & Hlen).
    assert (j = it) as -> by congruence.
    apply passes_exectimes in Hp. rewrite length_xrange in Hp. simpl in Hp.
    exists m. simpl. repeat split; try done; lia. }
  split; [exact Hret|]. split.
  - intros m Hm Hle.
    destruct (rescal X rank kwargs w) as [[r|e] w'] eqn:Hrun; [|eauto].
    destruct (Hret r w' eq_refl) as (m' & Hm' & Hpos & _). exfalso.
    rewrite Hm in Hm'. inversion Hm'. lia.
  - intros m conv lmbda Hm Hle HX Hkeys Hinit Hconv Hlmbda Hzero.
    apply Qeq_bool_iff in Hzero.
    destruct X as [|x X']; [done|].
    open_rescal kwargs.
    rewrite (leftover_recognised kwargs Hkeys). cbn [negb].
    rewrite (bind_ok _ _ _ _ _ (getitem_lookup (x :: X') 0 x w eq_refl)).
    assert (Hnum : exists q, py_number (kwarg "maxIter" DEF_MAXITER kwargs) = Some q).
    { destruct (kwarg "maxIter" DEF_MAXITER kwargs); simpl in *; eauto.
      discriminate. }
    destruct Hnum as [q Hq].
    unfold number_or_raise. rewrite Hq, Hconv, Hlmbda. rewrite !bind_ret.
    rewrite (bind_ok _ _ _ _ _ (norms_run (x :: X') w)).
    unfold kwarg at 1. rewrite Hinit. simpl py_eq_str. cbv iota.
    rewrite bind_bind, bind_rand. unfold array_. rewrite bind_call.
    match goal with
    | |- context [bind (solveR ?p ?X ?A lmbda) _ ?w1] =>
        destruct (solveR_zero_total p X A lmbda w1 Hzero) as (R & w2 & HR)
    end.
    rewrite (bind_ok _ _ _ _ _ HR).
    unfold index_or_raise. rewrite Hm, bind_ret.
    rewrite (xrange_nonpos m Hle). simpl. eauto.
Qed.




End Driver.

(** ** The random restarts *)

(** [first_min l i b]: [b] is the entry of [l] at [i], no entry is smaller
    and every entry before [i] is larger. *)
Definition first_min (l : list Q) (i : nat) (b : Q) : Prop :=
  l !! i = Some b
  /\ (forall j x, l !! j = Some x -> b <= x)
  /\ (forall j x, (j < i)%nat -> l !! j = Some x -> b < x).

Lemma Qltb_false_le (a b : Q) : Qltb a b = false -> b <= a.
Proof.
  unfold Qltb. intros H. apply negb_false_iff in H. by apply Qle_bool_iff.
Qed.

Lemma argmin_from_first_min (pre l : list Q) (best : Q) (ibest : nat) :
  first_min pre ibest best ->
  exists b, first_min (pre ++ l) (argmin_from best ibest (length pre) l) b.
Proof.
  revert pre best ibest. induction l as [|x l IH]; intros pre best ibest Hfm.
  - exists best. by rewrite app_nil_r.
  - destruct Hfm as (Hat & Hle & Hlt). simpl.
    assert (Hib : (ibest < length pre)%nat) by (by eapply lookup_lt_Some).
    replace (pre ++ x :: l) with ((pre ++ [x]) ++ l)
      by (by rewrite <- app_assoc).
    replace (Datatypes.S (length pre)) with (length (pre ++ [x]))
      by (rewrite length_app; simpl; lia).
    destruct (Qltb x best) eqn:Hx.
    + apply Qltb_lt in Hx. apply IH. repeat split.
      * by rewrite lookup_app_r, Nat.sub_diag by lia.
      * intros j y Hj. apply lookup_app_Some in Hj as [Hj|[_ Hj]].
        -- apply Qlt_le_weak. eapply Qlt_le_trans; [exact Hx|]. eauto.
        -- destruct (j - length pre)%nat; [|done]. inversion Hj. apply Qle_refl.
      * intros j y Hjlt Hj. rewrite lookup_app_l in Hj by lia.
        eapply Qlt_le_trans; [exact Hx|]. eauto.
    + apply Qltb_false_le in Hx. apply IH. repeat split.
      * by rewrite lookup_app_l by lia.
      * intros j y Hj. apply lookup_app_Some in Hj as [Hj|[_ Hj]]; [eauto|].
        destruct (j - length pre)%nat; [|done]. by inversion Hj; subst.
      * intros j y Hjlt Hj. rewrite lookup_app_l in Hj by lia. eauto.
Qed.

(** [numpy.argmin] returns the first index of the minimum. *)
Lemma argmin_first_min (l : list Q) (i : nat) :
  argmin l = Some i -> exists b, first_min l i b.
Proof.
  destruct l as [|x l]; [discriminate|]. simpl. intros H. inversion H.
  apply (argmin_from_first_min [x] l x 0).
  repeat split.
  - intros [|j] y Hj; [|done]. inversion Hj. apply Qle_refl.
  - intros j y Hj. lia.
Qed.

Section Restarts.

Context {np : Numpy}.

(** [restarts_run X rank kw n w rs w']: from world [w], [n] calls of
    [rescal X rank **kw] in a row all return; [rs] holds their results in
    order and [w'] is the world after the last. *)
Inductive restarts_run (X : list ndarray) (rank : Z) (kw : gmap string pyval)
    : nat -> world -> list result -> world -> Prop :=
  | restarts_run_O w : restarts_run X rank kw 0 w [] w
  | restarts_run_S n w r w1 rs w2 :
      rescal X rank kw w = (Ok r, w1) ->
      restarts_run X rank kw n w1 rs w2 ->
      restarts_run X rank kw (S n) w (r :: rs) w2.

Lemma restarts_run_length X rank kw n w rs w' :
  restarts_run X rank kw n w rs w' -> length rs = n.
Proof. induction 1; simpl; congruence. Qed.

Lemma restarts_loop_inv (X : list ndarray) (rank : Z)
    (kwargs : gmap string pyval) (l : list nat) models fits w models' fits' w' :
  for_in l (fun (i : nat) '(models, fits) =>
      res <- (match kwargs !! "init" with
              | Some _ =>
                  raise (TypeError "multiple values for keyword argument 'init'")
              | None => rescal X rank (<["init" := PStr "random"]> kwargs)
              end) ;;
      ret (models ++ [res], fits ++ [res_f res])) (models, fits) w
  = (Ok (models', fits'), w') ->
  exists rs,
    restarts_run X rank (<["init" := PStr "random"]> kwargs) (length l) w rs w'
    /\ models' = models ++ rs
    /\ fits' = fits ++ map res_f rs.
Proof.
  revert models fits w. induction l as [|i l IH]; intros models fits w H.
  - inversion H; subst. exists []. rewrite !app_nil_r.
    repeat split. constructor.
  - simpl in H. apply bind_inv_ok in H as ([ms fs] & w1 & Hb & H).
    apply bind_inv_ok in Hb as (r & w2 & Hr & Hb).
    inversion Hb; subst.
    destruct (kwargs !! "init"); [discriminate|].
    apply IH in H as (rs & Hrs & -> & ->).
    exists (r :: rs). rewrite <- !app_assoc. simpl.
    repeat split. econstructor; eauto.
Qed.

(** C6. A call of [rescal_with_random_restarts] that returns has made
    [restarts] calls of [rescal] in a row, each with [init='random'], and
    returns the result of the first of them whose [f] is smallest: no run has
    a smaller [f] and every run before it has a larger one.  When the values
    of [f] are [0.5, 0.2, 0.8, 0.2] it is the run of index 1. *)
Theorem restarts_select_first_minimum (X : list ndarray) (rank restarts : Z)
    (kwargs : gmap string pyval) (w : world) (r : result) (w' : world) :
  rescal_with_random_restarts X rank restarts kwargs w = (Ok r, w') ->
  exists (runs : list result) (wn : world) (i : nat),
    restarts_run X rank (<["init" := PStr "random"]> kwargs)
      (Z.to_nat restarts) w runs wn
    /\ length runs = Z.to_nat restarts
    /\ w' = addlog wn [OpArgmin]
    /\ runs !! i = Some r
    /\ (forall j rj, runs !! j = Some rj -> res_f r <= res_f rj)
    /\ (forall j rj, (j < i)%nat -> runs !! j = Some rj -> res_f r < res_f rj)
    /\ (map res_f runs = [1 # 2; 1 # 5; 4 # 5; 1 # 5] -> i = 1%nat).
Proof.
  unfold rescal_with_random_restarts. intros H.
  apply bind_inv_ok in H as ([models fits] & wn & Hloop & H).
  apply restarts_loop_inv in Hloop as (runs & Hruns & Hm & Hf).
  simpl in Hm, Hf. subst models fits. rewrite length_range in Hruns.
  apply bind_inv_ok in H as ([] & w1 & Htick & H).
  inversion Htick; subst w1.
  destruct (argmin (map res_f runs)) as [i|] eqn:Hmin; [|discriminate].
  unfold getitem in H. destruct (runs !! i) as [ri|] eqn:Hi; [|discriminate].
  inversion H; subst.
  destruct (argmin_first_min _ _ Hmin) as (b & Hb & Hle & Hlt).
  rewrite list_lookup_fmap, Hi in Hb. inversion Hb; subst b.
  exists runs, wn, i. repeat split; try done.
  - by eapply restarts_run_length.
  - intros j rj Hj. apply (Hle j). by rewrite list_lookup_fmap, Hj.
  - intros j rj Hji Hj. apply (Hlt j); [done|].
    by rewrite list_lookup_fmap, Hj.
  - intros Hfs. rewrite Hfs in Hmin. vm_compute in Hmin. by inversion Hmin.
Qed.

End Restarts.

(** * The theorems on 1x1 matrices *)

(** A run that returns, read off from its evaluation. *)
Lemma run_ok_inv {A} (x : res A * world) (P : A -> bool) :
  match x.1 with Ok a => P a | Raise _ => false end = true ->
  exists a w, x = (Ok a, w) /\ P a = true.
Proof. destruct x as [[a|e] w]; simpl; [eauto|discriminate]. Qed.

Definition one : @ndarray Scalar := Q2Qc 1.
Definition two : @ndarray Scalar := Q2Qc 2.
Definition half : @ndarray Scalar := Q2Qc (1 # 2).

(** The options of [rescal(X, 1, init='random', maxIter=7, conv=0.1)]. *)
Definition kw_run : gmap string pyval :=
  {[ "init" := PStr "random"; "maxIter" := PInt 7; "conv" := PFloat (1 # 10) ]}.

(** The options of
    [rescal_with_random_restarts(X, 1, 3, maxIter=1, lmbda=0.1)]. *)
Definition kw_restarts : gmap string pyval :=
  {[ "maxIter" := PInt 1; "lmbda" := PFloat (1 # 10) ]}.

Lemma updateA_solves_witness :
  (length [one] <= length [two])%nat
  /\ @inv Scalar (add (scale 0 (eye (shape half).2)) (E_of [one] half [two]))
     = Some half
  /\ exists w', @updateA Scalar [one] half [two] 0 w0
                = (Ok (dot (F_of [one] half [two]) half), w').
Proof.
  assert (H1 : (length [one] <= length [two])%nat) by (simpl; lia).
  assert (H2 : @inv Scalar
                 (add (scale 0 (eye (shape half).2)) (E_of [one] half [two]))
               = Some half) by (vm_compute; reflexivity).
  split; [exact H1|]. split; [exact H2|].
  exact (@updateA_solves Scalar [one] half [two] 0 w0 half H1 H2).
Defined.

Lemma updateR_unregularized_witness :
  exists w' ops,
    @updateR Scalar [one; two] half 0 w0
    = (Ok (map (fun Xk => dot (ainv_of half)
                            (dot Xk (transpose (ainv_of half))))
             [one; two]), w')
    /\ oplog w' = oplog w0 ++ ops
    /\ count_occ op_eq_dec ops OpPinv = 1%nat.
Proof.
  apply (@updateR_unregularized Scalar [one; two] half 0 w0). reflexivity.
Defined.

Lemma updateR_regularized_witness :
  0 < 1 # 10
  /\ exists tmp,
       @inv Scalar (kron_system half (1 # 10)) = Some tmp
       /\ exists w' ops,
            @updateR Scalar [one; two] half (1 # 10) w0
            = (Ok (map (R_regularized half tmp) [one; two]), w')
            /\ oplog w' = oplog w0 ++ ops
            /\ count_occ op_eq_dec ops OpKron = 1%nat
            /\ count_occ op_eq_dec ops OpInv = 1%nat.
Proof.
  assert (H1 : 0 < 1 # 10) by reflexivity.
  split; [exact H1|].
  destruct (@inv Scalar (kron_system half (1 # 10))) as [tmp|] eqn:H2;
    [|vm_compute in H2; discriminate].
  exists tmp. split; [reflexivity|].
  exact (@updateR_regularized Scalar [one; two] half (1 # 10) w0 tmp H1 H2).
Defined.



Lemma restarts_select_first_minimum_witness :
  exists r w',
    @rescal_with_random_restarts Scalar [one; two] 1 3 kw_restarts w0
    = (Ok r, w')
    /\ exists runs i,
         length runs = 3%nat
         /\ runs !! i = Some r
         /\ forall j rj, runs !! j = Some rj -> res_f r <= res_f rj.
Proof.
  destruct (run_ok_inv
              (@rescal_with_random_restarts Scalar [one; two] 1 3
                 kw_restarts w0)
              (fun _ => true))
    as (r & w' & Hrun & _); [vm_compute; reflexivity|].
  exists r, w'. split; [exact Hrun|].
  destruct (@restarts_select_first_minimum Scalar _ _ _ _ _ _ _ Hrun)
    as (runs & wn & i & _ & Hlen & _ & Hi & Hle & _).
  exists runs, i. split; [exact Hlen|]. split; [exact Hi|exact Hle].
Defined.

Lemma not_recognised_inti : "inti" ∉ recognised.
Proof.
  unfold recognised. intros H.
  repeat (apply elem_of_cons in H as [H|H]; [discriminate|]).
  by apply elem_of_nil in H.
Qed.

Lemma rescal_unknown_keyword_witness :
  @rescal Scalar [one] 1 {[ "inti" := PStr "random" ]} w0
  = (Raise (ValueError "Unknown keywords"), w0).
Proof.
  apply (@rescal_unknown_keyword Scalar [one] 1
           {[ "inti" := PStr "random" ]} "inti" w0).
  - exists (PStr "random"). reflexivity.
  - exact not_recognised_inti.
Defined.





(** The options of [rescal(X, 1, init='random', maxIter=0)]. *)
Definition kw_no_pass : gmap string pyval :=
  {[ "init" := PStr "random"; "maxIter" := PInt 0 ]}.

Lemma kw_no_pass_recognised (k : string) :
  is_Some (kw_no_pass !! k) -> k ∈ recognised.
Proof.
  unfold kw_no_pass, recognised. intros [v Hk].
  apply lookup_insert_Some in Hk as [[<- _]|[_ Hk]].
  - apply elem_of_cons. by left.
  - apply lookup_singleton_Some in Hk as [<- _].
    rewrite !elem_of_cons. auto.
Qed.

Lemma rescal_returns_after_a_pass_witness :
  (exists r w',
     @rescal Scalar [one; two] 1 kw_run w0 = (Ok r, w')
     /\ (1 <= res_iter r <= 7)%Z
     /\ Z.of_nat (length (res_exectimes r)) = res_iter r)
  /\ exists w',
       @rescal Scalar [one] 1 kw_no_pass w0
       = (Raise (UnboundLocalError "iter"), w').
Proof.
  destruct (@rescal_returns_after_a_pass Scalar [one; two] 1 kw_run w0)
    as (Hret & _ & _).
  destruct (@rescal_returns_after_a_pass Scalar [one] 1 kw_no_pass w0)
    as (_ & _ & Hraise).
  split.
  - destruct (run_ok_inv (@rescal Scalar [one; two] 1 kw_run w0)
                (fun _ => true))
      as (r & w' & Hrun & _); [vm_compute; reflexivity|].
    exists r, w'. split; [exact Hrun|].
    destruct (Hret r w' Hrun) as (m & Hm & _ & Hiter & Htimes).
    vm_compute in Hm. inversion Hm; subst m. split; [exact Hiter|exact Htimes].
  - apply (Hraise 0%Z (1 # 100000) 0).
    + reflexivity.
    + reflexivity.
    + discriminate.
    + exact kw_no_pass_recognised.
    + reflexivity.
    + reflexivity.
    + reflexivity.
    + reflexivity.
Defined.

(** * Further properties of the program

    Edge cases of the solvers, what a call of [rescal] that returns has
    done, the restarts, and the script at the end of the module. *)

Lemma for_in_app {I S} (l1 l2 : list I) (body : I -> S -> M S) (s : S) (w : world) :
  for_in (l1 ++ l2) body s w = bind (for_in l1 body s) (for_in l2 body) w.
Proof.
  revert s w. induction l1 as [|i l1 IH]; intros s w; simpl.
  - reflexivity.
  - rewrite bind_bind. unfold bind at 1 2.
    destruct (body i s w) as [[s1|e] w1]; [apply IH|done].
Qed.

(** A loop whose first passes return and log the same calls, and whose next
    pass raises at once. *)
Lemma for_in_regular_raise {I S} (l1 : list I) (i : I) (l2 : list I)
    (body : I -> S -> M S) (g : I -> S -> S) (ops : list op) (e : exn) :
  (forall j s w, j ∈ l1 -> body j s w = (Ok (g j s), addlog w ops)) ->
  (forall s w, body i s w = (Raise e, w)) ->
  forall s w,
    for_in (l1 ++ i :: l2) body s w
    = (Raise e, addlog w (concat (replicate (length l1) ops))).
Proof.
  intros Hok Hraise s w. rewrite for_in_app.
  rewrite (bind_ok _ _ _ _ _ (for_in_regular l1 body g ops Hok s w)).
  simpl. apply bind_raise, Hraise.
Qed.

Lemma range_split (n m : nat) :
  (n < m)%nat -> range m = range n ++ n :: seq (S n) (m - S n).
Proof.
  intros H. unfold range.
  replace m with (n + S (m - S n))%nat at 1 by lia.
  rewrite seq_app. simpl. reflexivity.
Qed.

Section SolverEdges.

Context {np : Numpy}.

(** X1. The projection of the slices always returns: one matrix for each
    slice, in the order of the slices, the k-th being [Q^T (X_k Q)]; it makes
    three library calls for each slice and none for an empty list. *)
Theorem projectSlices_total (X : list ndarray) (Q : ndarray) (w : world) :
  exists X2,
    projectSlices X Q w
    = (Ok X2, addlog w (concat (replicate (length X)
                                  [OpTranspose; OpDot; OpDot])))
    /\ length X2 = length X
    /\ forall k, X2 !! k = (fun Xk => dot (transpose Q) (dot Xk Q)) <$> X !! k.
Proof.
  eexists. split; [apply projectSlices_run|]. split.
  - apply length_map.
  - intros k. apply list_lookup_fmap.
Qed.

(** X2. When [R] holds fewer core matrices than there are slices, the factor
    solver raises [IndexError] at the first slice without one, after the
    passes for the slices before it; no inverse is computed. *)
Theorem updateA_missing_core (X : list ndarray) (A : ndarray) (R : list ndarray)
    (lmbda : Q) (w : world) :
  (length R < length X)%nat ->
  updateA X A R lmbda w
  = (Raise IndexError,
     addlog w ([OpZeros; OpZeros; OpTranspose; OpDot]
               ++ concat (replicate (length R) updateA_pass_ops))).
Proof.
  intros Hlen. unfold updateA.
  destruct (shape A) as [n rank] eqn:Hs.
  unfold zeros_, T_, dot_ at 1. rewrite !bind_call.
  rewrite (range_split _ _ Hlen).
  erewrite bind_raise; cycle 1.
  { apply (for_in_regular_raise _ _ _ _
      (fun i FE =>
         (add FE.1 (F_term A (nth i X A) (nth i R A)),
          add FE.2 (E_term A (nth i R A))))
      updateA_pass_ops IndexError).
    - intros i [F E] w1 Hi. apply elem_of_range in Hi.
      rewrite (bind_ok _ _ _ _ _ (getitem_nth R i A w1 Hi)).
      unfold dot_, T_, add_. rewrite bind_call.
      rewrite (bind_ok _ _ _ _ _ (getitem_nth X i A _ ltac:(lia))).
      rewrite !bind_call. unfold ret. rewrite !addlog_addlog. reflexivity.
    - intros [F E] w1. apply bind_raise. unfold getitem.
      by rewrite lookup_ge_None_2. }
  by rewrite length_range, !addlog_addlog.
Qed.

(** X3. When [lmbda I + E] has no inverse the factor solver raises
    [LinAlgError]: all the passes over the slices have been made, the last
    call is the one of [inv]. *)
Theorem updateA_singular_system (X : list ndarray) (A : ndarray)
    (R : list ndarray) (lmbda : Q) (w : world) :
  (length X <= length R)%nat ->
  inv (add (scale lmbda (eye (shape A).2)) (E_of X A R)) = None ->
  updateA X A R lmbda w
  = (Raise LinAlgError,
     addlog w ([OpZeros; OpZeros; OpTranspose; OpDot]
               ++ concat (replicate (length X) updateA_pass_ops)
               ++ [OpEye; OpScale; OpAdd; OpInv])).
Proof.
  intros Hlen Hinv. rewrite updateA_run by done.
  unfold inv_. rewrite Hinv. unfold call_opt, bind, tick, raise, addlog. simpl.
  do 2 f_equal. rewrite <- !app_assoc. simpl. by rewrite <- !app_assoc.
Qed.

(** X4. Whenever [lmbda] is not 0, negative values included, the core solver
    takes the regularised branch: it never calls [pinv], it forms the
    Kronecker system and inverts it once.  When that system has no inverse it
    raises [LinAlgError] before it reads any slice. *)
Theorem updateR_nonzero (X : list ndarray) (A : ndarray) (lmbda : Q)
    (w : world) :
  ~ lmbda == 0 ->
  exists ops,
    (updateR X A lmbda w).2 = addlog w ops
    /\ count_occ op_eq_dec ops OpPinv = 0%nat
    /\ count_occ op_eq_dec ops OpKron = 1%nat
    /\ count_occ op_eq_dec ops OpInv = 1%nat
    /\ match inv (kron_system A lmbda) with
       | Some tmp =>
           (updateR X A lmbda w).1 = Ok (map (R_regularized A tmp) X)
       | None =>
           (updateR X A lmbda w).1 = Raise LinAlgError
           /\ ops = [OpTranspose; OpDot; OpKron; OpEye; OpScale; OpAdd; OpInv]
       end.
Proof.
  intros Hl.
  assert (Hb : Qeq_bool lmbda 0 = false).
  { destruct (Qeq_bool lmbda 0) eqn:E; [|done].
    by apply Qeq_bool_iff in E. }
  rewrite updateR_run_reg by done.
  destruct (inv (kron_system A lmbda)) as [tmp|].
  - eexists. split; [reflexivity|].
    rewrite !count_occ_app, !count_occ_concat_replicate. simpl.
    repeat split; lia.
  - eexists. split; [reflexivity|]. simpl. repeat split; reflexivity.
Qed.

End SolverEdges.

(** ** Calls that leave the generator and the clock alone *)

(** [quiet m]: running [m] draws no random number and does not read the
    clock. *)
Definition quiet {A} (m : M A) : Prop :=
  forall w, draws (m w).2 = draws w /\ clock_reads (m w).2 = clock_reads w.

Lemma quiet_ret {A} (a : A) : quiet (ret a).
Proof. by intros w. Qed.

Lemma quiet_raise {A} (e : exn) : quiet (@raise A e).
Proof. by intros w. Qed.

Lemma quiet_bind {A B} (m : M A) (k : A -> M B) :
  quiet m -> (forall a, quiet (k a)) -> quiet (bind m k).
Proof.
  intros Hm Hk w. destruct (Hm w) as [Hd Hc]. unfold bind.
  destruct (m w) as [[a|e] w1]; simpl in *.
  - destruct (Hk a w1) as [Hd' Hc']. split; congruence.
  - done.
Qed.

Lemma quiet_tick (o : op) : quiet (tick o).
Proof. by intros w. Qed.

Lemma quiet_call {A} (o : op) (a : A) : quiet (call o a).
Proof. by intros w. Qed.

Lemma quiet_call_opt {A} (o : op) (e : exn) (a : option A) :
  quiet (call_opt o e a).
Proof. intros w. by destruct a. Qed.

Lemma quiet_getitem {A} (l : list A) (i : nat) : quiet (getitem l i).
Proof. unfold getitem. destruct (l !! i); [apply quiet_ret|apply quiet_raise]. Qed.

Lemma quiet_for_in {I S} (l : list I) (body : I -> S -> M S) (s : S) :
  (forall i s, quiet (body i s)) -> quiet (for_in l body s).
Proof.
  intros Hb. revert s. induction l as [|i l IH]; intros s; simpl.
  - apply quiet_ret.
  - apply quiet_bind; [apply Hb|apply IH].
Qed.

Ltac quiet_step :=
  lazymatch goal with
  | |- quiet (ret _) => apply quiet_ret
  | |- quiet (raise _) => apply quiet_raise
  | |- quiet (tick _) => apply quiet_tick
  | |- quiet (call _ _) => apply quiet_call
  | |- quiet (call_opt _ _ _) => apply quiet_call_opt
  | |- quiet (getitem _ _) => apply quiet_getitem
  | |- quiet (bind _ _) => apply quiet_bind; [|intros]
  | |- quiet (for_in _ _ _) => apply quiet_for_in; intros
  | |- quiet (match ?x with _ => _ end) => destruct x
  | |- quiet _ =>
      progress unfold dot_, T_, add_, scale_, zeros_, eye_, kron_, inv_,
        pinv_, qr_, eigsh_, array_, coo_matrix_, norm_, diagonal_,
        multiply_, sum_, flatten_, reshape_, power_, number_or_raise,
        index_or_raise
  end.

Lemma quiet_updateA {np : Numpy} X A R lmbda : quiet (updateA X A R lmbda).
Proof. unfold updateA. repeat quiet_step. Qed.

Lemma quiet_solveR {np : Numpy} proj X A lmbda : quiet (solveR proj X A lmbda).
Proof. unfold solveR, projectSlices, updateR. repeat quiet_step. Qed.

Lemma quiet_ok {A} (m : M A) (w : world) (a : A) (w' : world) :
  quiet m -> m w = (Ok a, w') ->
  draws w' = draws w /\ clock_reads w' = clock_reads w.
Proof. intros Hq H. specialize (Hq w). by rewrite H in Hq. Qed.

(** Unfold [rescal] and name the options it has popped. *)
Ltac unfold_rescal kwargs :=
  unfold rescal, pop; cbv beta iota zeta;
  rewrite !lookup_delete_ne by done;
  repeat match goal with
  | |- context [match kwargs !! ?k with Some v => v | None => ?d end] =>
      change (match kwargs !! k with Some v => v | None => d end)
        with (kwarg k d kwargs)
  end;
  fold (leftover kwargs).

Section DriverFacts.

Context {np : Numpy}.

(** The squared norm of a slice: the sum of the diagonal of [M M^T]. *)
Definition sqnorm (m : ndarray) : Q := pysum (diagonal (dot m (transpose m))).

(** The initialisation of the factor, lines 120-130; [X0] is [X[0]]. *)
Definition init_A (X : list ndarray) (X0 : ndarray) (rank : Z) (ainit : pyval)
    : M ndarray :=
  let n := fst (shape X0) in
  if py_eq_str ainit "random" then
    a <- rand_ n rank ;;
    array_ a
  else if py_eq_str ainit "nvecs" then
    S <- coo_matrix_ n n ;;
    T <- coo_matrix_ n n ;;
    S <- for_in (range (length X)) (fun i S =>
        T <- getitem X i ;;
        ST <- add_ S T ;;
        Tt <- T_ T ;;
        add_ ST Tt) S ;;
    '(evals, A) <- eigsh_ S rank ;;
    ret A
  else
    raise (RaisedString "Unknown init option").

(** The loop of lines 157-159 that adds up the terms of the objective. *)
Definition fit_loop (X Xflat : list ndarray) (normX : list Q) (A : ndarray)
    (R : list ndarray) (lmbda : Q) (f : Q) : M Q :=
  for_in (range (length X)) (fun i f =>
      Ri <- getitem R i ;;
      At <- T_ A ;;
      RAt <- dot_ Ri At ;;
      ARAt <- dot_ A RAt ;;
      nXi <- getitem normX i ;;
      nARAt <- norm_ ARAt ;;
      Xi <- getitem Xflat i ;;
      XARAt <- multiply_ Xi ARAt ;;
      s <- sum_ XARAt ;;
      Rf <- flatten_ Ri ;;
      Rf2 <- power_ Rf 2 ;;
      s2 <- sum_ Rf2 ;;
      ret (f + (nXi + nARAt ^ 2 - 2 * s + lmbda * s2))) f.

(** One relation's term of the objective:
    [|X_k|^2 + |A R_k A^T|^2 - 2 sum(X_k * A R_k A^T) + lmbda sum(R_k^2)]. *)
Definition objective_term (A : ndarray) (lmbda : Q) (Xk Rk : ndarray) : Q :=
  sqnorm Xk + norm (dot A (dot Rk (transpose A))) ^ 2
  - 2 * msum (multiply Xk (dot A (dot Rk (transpose A))))
  + lmbda * msum (power (flatten Rk) 2).

(** The objective at the factors [A] and [R]:
    half of [lmbda |A|^2] plus the terms of the relations. *)
Definition objective (X : list ndarray) (A : ndarray) (R : list ndarray)
    (lmbda : Q) : Q :=
  fold_left (fun f xr => f + objective_term A lmbda xr.1 xr.2) (zip X R)
    (lmbda * norm A ^ 2) * (1 # 2).

Definition fit_ops : list op :=
  [OpTranspose; OpDot; OpDot; OpNorm; OpMultiply; OpSum; OpFlatten; OpPower;
   OpSum].

Lemma solveR_ok_length (proj : bool) (X : list ndarray) (A : ndarray)
    (lmbda : Q) (w : world) (R : list ndarray) (w' : world) :
  solveR proj X A lmbda w = (Ok R, w') -> length R = length X.
Proof.
  assert (Hup : forall X A w R w',
    updateR X A lmbda w = (Ok R, w') -> length R = length X).
  { clear. intros X A w R w'. destruct (Qeq_bool lmbda 0) eqn:Hl.
    - rewrite updateR_run_zero by done. inversion 1. apply length_map.
    - rewrite updateR_run_reg by done.
      destruct (inv (kron_system A lmbda)); inversion 1. apply length_map. }
  unfold solveR. destruct proj; [|apply Hup].
  unfold qr_. rewrite bind_call. destruct (qr A) as [Qm A2].
  rewrite (bind_ok _ _ _ _ _ (projectSlices_run X Qm _)).
  intros H. apply Hup in H. by rewrite length_map in H.
Qed.

Lemma fit_loop_run (X : list ndarray) (A : ndarray) (R : list ndarray)
    (lmbda f : Q) (w : world) :
  (length X <= length R)%nat ->
  fit_loop X X (map sqnorm X) A R lmbda f w
  = (Ok (fold_left (fun f xr => f + objective_term A lmbda xr.1 xr.2)
           (zip X R) f),
     addlog w (concat (replicate (length X) fit_ops))).
Proof.
  intros Hlen. unfold fit_loop.
  rewrite (for_in_regular _ _
    (fun i f => f + objective_term A lmbda (nth i X A) (nth i R A)) fit_ops).
  - rewrite (fold_left_range_zip X R A A
               (fun x r f => f + objective_term A lmbda x r)) by done.
    by rewrite length_range.
  - intros i f1 w1 Hi. apply elem_of_range in Hi.
    rewrite (bind_ok _ _ _ _ _ (getitem_nth R i A w1 ltac:(lia))).
    unfold T_, dot_. rewrite !bind_call.
    assert (Hx : X !! i = Some (nth i X A)).
    { destruct (lookup_lt_is_Some_2 X i Hi) as [x Hx]. rewrite Hx.
      f_equal. symmetry. by apply nth_lookup_Some. }
    rewrite (bind_ok _ _ _ _ _
               (getitem_lookup (map sqnorm X) i (sqnorm (nth i X A)) _
                  ltac:(by rewrite list_lookup_fmap, Hx))).
    unfold norm_. rewrite bind_call.
    rewrite (bind_ok _ _ _ _ _ (getitem_nth X i A _ Hi)).
    unfold multiply_, sum_, flatten_, power_. rewrite !bind_call.
    unfold ret. rewrite !addlog_addlog. reflexivity.
Qed.

(** The steps of a call of [rescal] that returns. *)
Lemma rescal_ok_trace (X : list ndarray) (rank : Z)
    (kwargs : gmap string pyval) (w : world) (r : result) (w' : world) :
  rescal X rank kwargs w = (Ok r, w') ->
  exists (x : ndarray) (m : Z) (conv lmbda : Q) (A0 : ndarray) (wA : world)
         (R0 : list ndarray) (wi : world) (st : als_state) (wl : world)
         (it : Z),
    X !! 0%nat = Some x
    /\ py_index (kwarg "maxIter" DEF_MAXITER kwargs) = Some m
    /\ py_number (kwarg "conv" DEF_CONV kwargs) = Some conv
    /\ py_number (kwarg "lmbda" DEF_LMBDA kwargs) = Some lmbda
    /\ init_A X x rank (kwarg "init" DEF_INIT kwargs) (addlog w (norm_ops X))
       = (Ok A0, wA)
    /\ solveR (truthy (kwarg "proj" DEF_PROJ kwargs)) X A0 lmbda wA
       = (Ok R0, wi)
    /\ for_break (xrange m)
         (als_body X X (map sqnorm X) (pysum (map sqnorm X))
            (truthy (kwarg "proj" DEF_PROJ kwargs)) conv lmbda)
         (AlsState A0 R0 0 0 0 0 [] None) wi
       = (Ok st, wl)
    /\ st_iter st = Some it
    /\ r = Result (st_A st) (st_R st) (st_f st) (it + 1)%Z (st_exectimes st)
    /\ w' = addlog wl [OpArray].
Proof.
  unfold_rescal kwargs.
  destruct (negb _); [discriminate|].
  intros H.
  apply bind_inv_ok in H as (x & w1 & Hx & H).
  unfold getitem in Hx. destruct (X !! 0%nat) as [x0|] eqn:HX; [|discriminate].
  inversion Hx; subst x0 w1.
  apply bind_inv_ok in H as (_q & w2 & Hq & H).
  apply number_or_raise_ok in Hq as [_ ->].
  apply bind_inv_ok in H as (conv & w3 & Hconv & H).
  apply number_or_raise_ok in Hconv as [Hconv ->].
  apply bind_inv_ok in H as (lmbda & w4 & Hlmbda & H).
  apply number_or_raise_ok in Hlmbda as [Hlmbda ->].
  rewrite (bind_ok _ _ _ _ _ (norms_run X w)) in H.
  apply bind_inv_ok in H as (A0 & w6 & HA & H).
  apply bind_inv_ok in H as (R0 & w7 & HR & H).
  apply bind_inv_ok in H as (m & w8 & Hm & H).
  apply index_or_raise_ok in Hm as [Hm ->].
  apply bind_inv_ok in H as (st & wl & Hloop & H).
  destruct (st_iter st) as [it|] eqn:Hit; [|discriminate].
  inversion H; subst.
  exists x, m, conv, lmbda, A0, w6, R0, w7, st, wl, it.
  repeat split; done.
Qed.

(** The steps of a pass of the loop that completes. *)
Lemma als_body_trace (X Xflat : list ndarray) (normX : list Q) (sumNormX : Q)
    (proj : bool) (conv lmbda : Q) (iter : Z) (st : als_state) (w : world)
    (st' : als_state) (brk : bool) (w' : world) :
  als_body X Xflat normX sumNormX proj conv lmbda iter st w
  = (Ok (st', brk), w') ->
  exists (wA : world) (wR : world) (f : Q) (wf : world),
    updateA X (st_A st) (st_R st) lmbda
      (World (draws w) (S (clock_reads w)) (oplog w))
    = (Ok (st_A st'), wA)
    /\ solveR proj X (st_A st') lmbda wA = (Ok (st_R st'), wR)
    /\ fit_loop X Xflat normX (st_A st') (st_R st') lmbda
         (lmbda * norm (st_A st') ^ 2) (addlog wR [OpNorm])
       = (Ok f, wf)
    /\ st_f st' = f * (1 # 2)
    /\ st_exectimes st'
       = st_exectimes st ++ [clock (clock_reads wf) - clock (clock_reads w)]
    /\ w' = World (draws wf) (S (clock_reads wf)) (oplog wf).
Proof.
  unfold als_body. intros H.
  apply bind_inv_ok in H as (tic & w1 & Htic & H).
  inversion Htic; subst tic w1.
  apply bind_inv_ok in H as (A & w2 & HA & H).
  apply bind_inv_ok in H as (R & w3 & HR & H).
  unfold norm_ in H. rewrite bind_call in H.
  apply bind_inv_ok in H as (f & w5 & Hf & H).
  apply bind_inv_ok in H as (toc & w6 & Htoc & H).
  inversion Htoc; subst toc w6.
  inversion H; subst; simpl.
  exists w2, w3, f, w5. repeat split; done.
Qed.

End DriverFacts.

Lemma quiet_fit_loop {np : Numpy} X Xflat normX A R lmbda f :
  quiet (fit_loop X Xflat normX A R lmbda f).
Proof. unfold fit_loop. repeat quiet_step. Qed.

Section Returns.

Context {np : Numpy}.

(** The last pass of a call that returns. *)
Lemma rescal_last_pass (X : list ndarray) (rank : Z)
    (kwargs : gmap string pyval) (w : world) (r : result) (w' : world) :
  rescal X rank kwargs w = (Ok r, w') ->
  exists (m : Z) (conv lmbda : Q) (x A0 : ndarray) (wA : world)
         (R0 : list ndarray) (wi : world) (sp : als_state) (wp : world)
         (st : als_state) (wl : world) (brk : bool),
    let body := als_body X X (map sqnorm X) (pysum (map sqnorm X))
                  (truthy (kwarg "proj" DEF_PROJ kwargs)) conv lmbda in
    let it := (res_iter r - 1)%Z in
    py_index (kwarg "maxIter" DEF_MAXITER kwargs) = Some m
    /\ py_number (kwarg "conv" DEF_CONV kwargs) = Some conv
    /\ py_number (kwarg "lmbda" DEF_LMBDA kwargs) = Some lmbda
    /\ X !! 0%nat = Some x
    /\ init_A X x rank (kwarg "init" DEF_INIT kwargs) (addlog w (norm_ops X))
       = (Ok A0, wA)
    /\ solveR (truthy (kwarg "proj" DEF_PROJ kwargs)) X A0 lmbda wA
       = (Ok R0, wi)
    /\ (0 <= it < m)%Z
    /\ passes body (xrange it) (AlsState A0 R0 0 0 0 0 [] None) wi sp wp
    /\ body it sp wp = (Ok (st, brk), wl)
    /\ (brk = true \/ res_iter r = m)
    /\ r = Result (st_A st) (st_R st) (st_f st) (it + 1)%Z (st_exectimes st)
    /\ w' = addlog wl [OpArray].
Proof.
  intros H.
  apply rescal_ok_trace in H
    as (x & m & conv & lmbda & A0 & wA & R0 & wi & st & wl & it
        & Hx & Hm & Hconv & Hlmbda & HA & HR & Hloop & Hit & -> & ->).
  apply for_break_xrange_inv in Hloop
    as [(_ & -> & _)|(j & sp & wp & brk & Hj & Hp & Hb & Hbrk)];
    [discriminate|].
  pose proof (als_body_inv _ _ _ _ _ _ _ _ _ _ _ _ _ Hb) as (Hiter & _).
  assert (j = it) as -> by congruence.
  exists m, conv, lmbda, x, A0, wA, R0, wi, sp, wp, st, wl, brk.
  simpl. replace (it + 1 - 1)%Z with it by lia.
  repeat split; try done; lia.
Qed.

(** X5. A call of [rescal] that returns gives one core matrix for each
    slice. *)
Theorem rescal_core_count (X : list ndarray) (rank : Z)
    (kwargs : gmap string pyval) (w : world) (r : result) (w' : world) :
  rescal X rank kwargs w = (Ok r, w') ->
  length (res_R r) = length X /\ X <> [].
Proof.
  intros H.
  apply rescal_last_pass in H
    as (m & conv & lmbda & x & A0 & wA & R0 & wi & sp & wp & st & wl & brk
        & _ & _ & _ & Hx & _ & _ & _ & _ & Hb & _ & -> & _).
  apply als_body_trace in Hb as (w1 & w2 & f & wf & _ & HR & _).
  split; [by apply solveR_ok_length in HR|]. by intros ->.
Qed.

(** The objective at the factors of a call that returns. *)
Lemma rescal_ok_objective (X : list ndarray) (rank : Z)
    (kwargs : gmap string pyval) (w : world) (r : result) (w' : world) :
  rescal X rank kwargs w = (Ok r, w') ->
  exists lmbda,
    py_number (kwarg "lmbda" DEF_LMBDA kwargs) = Some lmbda
    /\ res_f r = objective X (res_A r) (res_R r) lmbda.
Proof.
  intros H.
  apply rescal_last_pass in H
    as (m & conv & lmbda & x & A0 & wA & R0 & wi & sp & wp & st & wl & brk
        & _ & _ & Hlmbda & _ & _ & _ & _ & _ & Hb & _ & -> & _).
  exists lmbda. split; [done|]. simpl.
  apply als_body_trace in Hb as (w1 & w2 & f & wf & _ & HR & Hf & -> & _).
  apply solveR_ok_length in HR.
  rewrite fit_loop_run in Hf by lia. inversion Hf. reflexivity.
Qed.

(** X6. The value [f] that [rescal] returns is the objective at the factors
    it returns: half of [lmbda |A|^2] plus, for each slice,
    [|X_k|^2 + |A R_k A^T|^2 - 2 sum(X_k * A R_k A^T) + lmbda sum(R_k^2)]. *)
Theorem rescal_objective (X : list ndarray) (rank : Z)
    (kwargs : gmap string pyval) (w : world) (r : result) (w' : world) :
  rescal X rank kwargs w = (Ok r, w') ->
  exists lmbda,
    py_number (kwarg "lmbda" DEF_LMBDA kwargs) = Some lmbda
    /\ res_f r = objective X (res_A r) (res_R r) lmbda.
Proof. apply rescal_ok_objective. Qed.

Lemma als_body_clock (X Xflat : list ndarray) (normX : list Q) (sumNormX : Q)
    (proj : bool) (conv lmbda : Q) (iter : Z) (st : als_state) (w : world)
    (st' : als_state) (brk : bool) (w' : world) :
  als_body X Xflat normX sumNormX proj conv lmbda iter st w
  = (Ok (st', brk), w') ->
  draws w' = draws w
  /\ clock_reads w' = S (S (clock_reads w))
  /\ st_exectimes st'
     = st_exectimes st
       ++ [clock (S (clock_reads w)) - clock (clock_reads w)].
Proof.
  intros H.
  apply als_body_trace in H as (w1 & w2 & f & wf & HA & HR & Hf & _ & Ht & ->).
  apply (quiet_ok _ _ _ _ (quiet_updateA _ _ _ _)) in HA as [Hd1 Hc1].
  apply (quiet_ok _ _ _ _ (quiet_solveR _ _ _ _)) in HR as [Hd2 Hc2].
  apply (quiet_ok _ _ _ _ (quiet_fit_loop _ _ _ _ _ _ _)) in Hf as [Hd3 Hc3].
  simpl in *. rewrite Ht.
  assert (Hc : clock_reads wf = S (clock_reads w)) by congruence.
  rewrite Hc. repeat split; congruence.
Qed.

(** The readings of the clock in the passes that complete. *)
Lemma passes_clock (X Xflat : list ndarray) (normX : list Q) (sumNormX : Q)
    (proj : bool) (conv lmbda : Q) (l : list Z) (s : als_state) (w : world)
    (s' : als_state) (w' : world) :
  passes (als_body X Xflat normX sumNormX proj conv lmbda) l s w s' w' ->
  draws w' = draws w
  /\ clock_reads w' = (clock_reads w + 2 * length l)%nat
  /\ st_exectimes s'
     = st_exectimes s
       ++ map (fun j => clock (S (clock_reads w + 2 * j))
                        - clock (clock_reads w + 2 * j)%nat)
              (seq 0 (length l)).
Proof.
  induction 1 as [s w|i l s w s1 w1 s2 w2 Hb _ IH].
  - simpl. rewrite app_nil_r. repeat split; lia.
  - apply als_body_clock in Hb as (Hd & Hc & Ht).
    destruct IH as (Hd' & Hc' & Ht').
    split; [congruence|]. split; [simpl; lia|].
    rewrite Ht', Ht, <- app_assoc. f_equal.
    cbn [length seq map app]. rewrite Nat.mul_0_r, Nat.add_0_r. f_equal.
    rewrite <- seq_shift, map_map. apply map_ext. intros j.
    rewrite Hc.
    replace (S (S (clock_reads w)) + 2 * j)%nat
      with (clock_reads w + 2 * S j)%nat by lia.
    reflexivity.
Qed.

Lemma init_A_generator (X : list ndarray) (x : ndarray) (rank : Z)
    (ainit : pyval) (w : world) (A0 : ndarray) (w' : world) :
  init_A X x rank ainit w = (Ok A0, w') ->
  clock_reads w' = clock_reads w
  /\ draws w'
     = (draws w + if py_eq_str ainit "random" then 1 else 0)%nat.
Proof.
  unfold init_A. destruct (py_eq_str ainit "random").
  - rewrite bind_rand. unfold array_, call, tick, bind, ret. simpl.
    inversion 1; subst; simpl. split; lia.
  - destruct (py_eq_str ainit "nvecs"); [|discriminate].
    intros H. eapply quiet_ok in H as [Hd Hc]; [split; lia|].
    repeat quiet_step.
Qed.

(** The clock and the generator over a call that returns. *)
Lemma rescal_ok_effects (X : list ndarray) (rank : Z)
    (kwargs : gmap string pyval) (w : world) (r : result) (w' : world) :
  rescal X rank kwargs w = (Ok r, w') ->
  let n := Z.to_nat (res_iter r) in
  let c := clock_reads w in
  clock_reads w' = (c + 2 * n)%nat
  /\ res_exectimes r
     = map (fun j => clock (S (c + 2 * j)) - clock (c + 2 * j)%nat) (seq 0 n)
  /\ draws w'
     = (draws w
        + if py_eq_str (kwarg "init" DEF_INIT kwargs) "random" then 1 else 0)%nat.
Proof.
  intros H.
  apply rescal_last_pass in H
    as (m & conv & lmbda & x & A0 & wA & R0 & wi & sp & wp & st & wl & brk
        & _ & _ & _ & _ & HA & HR & Hit & Hp & Hb & _ & -> & ->).
  cbn [res_iter res_exectimes] in *.
  set (it := (_ - 1)%Z) in *.
  apply init_A_generator in HA as [HcA HdA].
  apply (quiet_ok _ _ _ _ (quiet_solveR _ _ _ _)) in HR as [HdR HcR].
  apply passes_clock in Hp as (Hdp & Hcp & Htp).
  apply als_body_clock in Hb as (Hdb & Hcb & Htb).
  rewrite length_xrange in Hcp, Htp. simpl in *.
  assert (Hci : clock_reads wi = clock_reads w) by congruence.
  replace (Z.to_nat (it + 1)) with (S (Z.to_nat it)) by lia.
  split; [lia|]. split; [|lia].
  rewrite seq_S, map_app, Htb, Htp, Hcp, Hci. simpl. reflexivity.
Qed.

(** X7. A call of [rescal] that returns after [n] passes has read the clock
    twice in each pass and nowhere else; the k-th execution time is the
    difference of the two readings of the k-th pass.  It has drawn from the
    random generator once when [init] is ['random'], and not at all with the
    eigenvector initialisation. *)
Theorem rescal_clock_and_generator (X : list ndarray) (rank : Z)
    (kwargs : gmap string pyval) (w : world) (r : result) (w' : world) :
  rescal X rank kwargs w = (Ok r, w') ->
  let n := Z.to_nat (res_iter r) in
  let c := clock_reads w in
  clock_reads w' = (c + 2 * n)%nat
  /\ res_exectimes r
     = map (fun j => clock (S (c + 2 * j)) - clock (c + 2 * j)%nat) (seq 0 n)
  /\ draws w'
     = (draws w
        + if py_eq_str (kwarg "init" DEF_INIT kwargs) "random" then 1 else 0)%nat.
Proof. apply rescal_ok_effects. Qed.

(** X8. With [conv <= 0] the loop never stops by convergence: a call that
    returns has made [maxIter] passes. *)
Theorem rescal_conv_nonpositive (X : list ndarray) (rank : Z)
    (kwargs : gmap string pyval) (w : world) (r : result) (w' : world)
    (conv : Q) :
  py_number (kwarg "conv" DEF_CONV kwargs) = Some conv ->
  conv <= 0 ->
  rescal X rank kwargs w = (Ok r, w') ->
  py_index (kwarg "maxIter" DEF_MAXITER kwargs) = Some (res_iter r).
Proof.
  intros Hconv Hle H.
  apply rescal_last_pass in H
    as (m & conv' & lmbda & x & A0 & wA & R0 & wi & sp & wp & st & wl & brk
        & Hm & Hconv' & _ & _ & _ & _ & _ & _ & Hb & Hbrk & _ & _).
  rewrite Hconv in Hconv'. inversion Hconv'; subst conv'.
  destruct Hbrk as [-> | ->]; [|done]. exfalso.
  apply als_body_inv in Hb as (_ & _ & Hchange & Hflag & _).
  symmetry in Hflag. apply andb_true_iff in Hflag as [_ Hlt].
  apply Qltb_lt in Hlt. rewrite Hchange in Hlt.
  apply (Qlt_irrefl 0). eapply Qle_lt_trans; [apply Qabs_nonneg|].
  eapply Qlt_le_trans; [exact Hlt|exact Hle].
Qed.

(** X9. A [maxIter], [conv] or [lmbda] that is not a number makes the call
    raise [TypeError] where the configuration line is formatted: the slices are
    not touched and the world is as it was. *)
Theorem rescal_non_numeric_option (X : list ndarray) (rank : Z)
    (kwargs : gmap string pyval) (w : world) :
  (forall k, is_Some (kwargs !! k) -> k ∈ recognised) ->
  X <> [] ->
  py_number (kwarg "maxIter" DEF_MAXITER kwargs) = None
  \/ py_number (kwarg "conv" DEF_CONV kwargs) = None
  \/ py_number (kwarg "lmbda" DEF_LMBDA kwargs) = None ->
  rescal X rank kwargs w = (Raise (TypeError "a number is required"), w).
Proof.
  intros Hkeys HX Hbad. destruct X as [|x X']; [done|].
  unfold_rescal kwargs.
  rewrite (leftover_recognised kwargs Hkeys). cbn [negb].
  rewrite (bind_ok _ _ _ _ _ (getitem_lookup (x :: X') 0 x w eq_refl)).
  unfold number_or_raise.
  destruct (py_number (kwarg "maxIter" DEF_MAXITER kwargs)); [|done].
  rewrite bind_ret.
  destruct (py_number (kwarg "conv" DEF_CONV kwargs)); [|done].
  rewrite bind_ret.
  destruct (py_number (kwarg "lmbda" DEF_LMBDA kwargs)); [|done].
  by destruct Hbad as [?|[?|?]].
Qed.

(** The matrix whose eigenvectors initialise the factor:
    the empty sparse matrix plus [X_k + X_k^T] for each slice. *)
Definition sym_sum (X : list ndarray) (x : ndarray) : ndarray :=
  fold_left (fun S T => add (add S T) (transpose T)) X
    (coo_matrix (shape x).1 (shape x).1).

Definition nvecs_ops (X : list ndarray) : list op :=
  [OpCooMatrix; OpCooMatrix]
  ++ concat (replicate (length X) [OpAdd; OpTranspose; OpAdd])
  ++ [OpEigsh].

Lemma init_A_nvecs_run (X : list ndarray) (x : ndarray) (rank : Z)
    (w : world) :
  init_A X x rank (PStr "nvecs") w
  = match eigsh (sym_sum X x) rank with
    | Some (evals, A) => (Ok A, addlog w (nvecs_ops X))
    | None => (Raise EigshError, addlog w (nvecs_ops X))
    end.
Proof.
  unfold init_A. cbn [py_eq_str String.eqb Ascii.eqb Bool.eqb].
  unfold coo_matrix_. rewrite !bind_call.
  erewrite bind_ok; cycle 1.
  { apply (for_in_regular _ _
      (fun i S => add (add S (nth i X x)) (transpose (nth i X x)))
      [OpAdd; OpTranspose; OpAdd]).
    intros i S w1 Hi. apply elem_of_range in Hi.
    rewrite (bind_ok _ _ _ _ _ (getitem_nth X i x w1 Hi)).
    unfold add_, T_. rewrite !bind_call. unfold call, bind, tick, ret.
    simpl. unfold addlog. simpl. by rewrite <- !app_assoc. }
  rewrite (fold_left_range_nth X x
             (fun T S => add (add S T) (transpose T))).
  fold (sym_sum X x). unfold eigsh_. rewrite length_range.
  destruct (eigsh (sym_sum X x) rank) as [[evals A]|].
  - rewrite bind_call_opt_some. unfold ret, nvecs_ops.
    by rewrite !addlog_addlog.
  - rewrite bind_call_opt_none. unfold nvecs_ops.
    by rewrite !addlog_addlog.
Qed.

(** X10. With the default initialisation (['nvecs']) the factor comes from
    [eigsh] on the sum over the slices of [X_k + X_k^T]; when [eigsh] raises,
    the call raises after the slice norms and that sum, and before any
    solver step. *)
Theorem rescal_nvecs_eigsh_failure (X : list ndarray) (x : ndarray) (rank : Z)
    (kwargs : gmap string pyval) (w : world) :
  (forall k, is_Some (kwargs !! k) -> k ∈ recognised) ->
  X !! 0%nat = Some x ->
  kwarg "init" DEF_INIT kwargs = PStr "nvecs" ->
  is_Some (py_number (kwarg "maxIter" DEF_MAXITER kwargs)) ->
  is_Some (py_number (kwarg "conv" DEF_CONV kwargs)) ->
  is_Some (py_number (kwarg "lmbda" DEF_LMBDA kwargs)) ->
  eigsh (sym_sum X x) rank = None ->
  rescal X rank kwargs w
  = (Raise EigshError, addlog w (norm_ops X ++ nvecs_ops X)).
Proof.
  intros Hkeys Hx Hinit [qm Hqm] [conv Hconv] [lmbda Hlmbda] Heig.
  unfold_rescal kwargs.
  rewrite (leftover_recognised kwargs Hkeys). cbn [negb].
  rewrite (bind_ok _ _ _ _ _ (getitem_lookup X 0 x w Hx)).
  unfold number_or_raise. rewrite Hqm, Hconv, Hlmbda, !bind_ret.
  rewrite (bind_ok _ _ _ _ _ (norms_run X w)).
  rewrite Hinit.
  pose proof (init_A_nvecs_run X x rank (addlog w (norm_ops X))) as HA.
  rewrite Heig in HA. rewrite addlog_addlog in HA.
  apply bind_raise. exact HA.
Qed.

End Returns.

(** ** The restarts: edge cases *)

Section RestartsEdges.

Context {np : Numpy}.

(** The loop of [rescal_with_random_restarts] over runs that return. *)
Lemma restarts_loop_run (X : list ndarray) (rank : Z)
    (kwargs : gmap string pyval) (l : list nat) models fits w rs w' :
  kwargs !! "init" = None ->
  restarts_run X rank (<["init" := PStr "random"]> kwargs) (length l) w rs w' ->
  for_in l (fun (i : nat) '(models, fits) =>
      res <- (match kwargs !! "init" with
              | Some _ =>
                  raise (TypeError "multiple values for keyword argument 'init'")
              | None => rescal X rank (<["init" := PStr "random"]> kwargs)
              end) ;;
      ret (models ++ [res], fits ++ [res_f res])) (models, fits) w
  = (Ok (models ++ rs, fits ++ map res_f rs), w').
Proof.
  intros Hinit. revert models fits w rs.
  induction l as [|i l IH]; intros models fits w rs Hruns.
  - inversion Hruns; subst. simpl. by rewrite !app_nil_r.
  - inversion Hruns as [|n w0' r w1 rs' w2 Hr Hrest]; subst.
    cbn [for_in]. erewrite bind_ok; cycle 1.
    { rewrite Hinit. rewrite (bind_ok _ _ _ _ _ Hr). reflexivity. }
    rewrite (IH _ _ _ _ Hrest). simpl. by rewrite <- !app_assoc.
Qed.

(** X11. With [restarts <= 0] no run of [rescal] is made and the call raises
    the [ValueError] of [argmin] on the empty list of fits. *)
Theorem restarts_nonpositive (X : list ndarray) (rank restarts : Z)
    (kwargs : gmap string pyval) (w : world) :
  (restarts <= 0)%Z ->
  rescal_with_random_restarts X rank restarts kwargs w
  = (Raise (ValueError "attempt to get argmin of an empty sequence"),
     addlog w [OpArgmin]).
Proof.
  intros Hle. unfold rescal_with_random_restarts.
  replace (Z.to_nat restarts) with 0%nat by lia. reflexivity.
Qed.

(** X12. A caller's own [init] among the keyword arguments collides with
    the [init='random'] of the call of [rescal]: with at least one restart the
    call raises [TypeError] before [rescal] runs. *)
Theorem restarts_init_conflict (X : list ndarray) (rank restarts : Z)
    (kwargs : gmap string pyval) (w : world) :
  (0 < restarts)%Z ->
  is_Some (kwargs !! "init") ->
  rescal_with_random_restarts X rank restarts kwargs w
  = (Raise (TypeError "multiple values for keyword argument 'init'"), w).
Proof.
  intros Hpos [v Hv]. unfold rescal_with_random_restarts.
  destruct (Z.to_nat restarts) as [|n] eqn:Hn; [lia|].
  unfold range. cbn [seq for_in]. rewrite Hv. reflexivity.
Qed.

(** X13. When a run of [rescal] raises, after any number of runs that
    returned, the call raises the same exception there: the models found so
    far are dropped and no further run is made. *)
Theorem restarts_failure_propagates (X : list ndarray) (rank restarts : Z)
    (kwargs : gmap string pyval) (n : nat) (w : world) (rs : list result)
    (wn : world) (e : exn) (we : world) :
  kwargs !! "init" = None ->
  (n < Z.to_nat restarts)%nat ->
  restarts_run X rank (<["init" := PStr "random"]> kwargs) n w rs wn ->
  rescal X rank (<["init" := PStr "random"]> kwargs) wn = (Raise e, we) ->
  rescal_with_random_restarts X rank restarts kwargs w = (Raise e, we).
Proof.
  intros Hinit Hn Hruns Hfail. unfold rescal_with_random_restarts.
  rewrite (range_split n _ Hn). apply bind_raise.
  rewrite for_in_app.
  erewrite bind_ok; cycle 1.
  { apply restarts_loop_run; [done|]. by rewrite length_range. }
  cbn [for_in app]. rewrite Hinit. apply bind_raise, bind_raise. exact Hfail.
Qed.

(** X14. When the [restarts >= 1] runs of [rescal] all return, the call
    returns: its result is the run at the first index where [f] is
    smallest. *)
Theorem restarts_returns (X : list ndarray) (rank restarts : Z)
    (kwargs : gmap string pyval) (w : world) (runs : list result)
    (wn : world) :
  kwargs !! "init" = None ->
  (0 < restarts)%Z ->
  restarts_run X rank (<["init" := PStr "random"]> kwargs)
    (Z.to_nat restarts) w runs wn ->
  exists (i : nat) (r : result),
    rescal_with_random_restarts X rank restarts kwargs w
    = (Ok r, addlog wn [OpArgmin])
    /\ runs !! i = Some r
    /\ (forall j rj, runs !! j = Some rj -> res_f r <= res_f rj)
    /\ (forall j rj, (j < i)%nat -> runs !! j = Some rj -> res_f r < res_f rj).
Proof.
  intros Hinit Hpos Hruns. unfold rescal_with_random_restarts.
  pose proof (restarts_run_length _ _ _ _ _ _ _ Hruns) as Hlen.
  erewrite bind_ok; cycle 1.
  { apply restarts_loop_run; [done|]. rewrite length_range. exact Hruns. }
  rewrite !app_nil_l. unfold bind, tick.
  destruct (argmin (map res_f runs)) as [i|] eqn:Hmin.
  - destruct (argmin_first_min _ _ Hmin) as (b & Hb & Hle & Hlt).
    rewrite list_lookup_fmap in Hb.
    destruct (runs !! i) as [r|] eqn:Hi; [|discriminate].
    inversion Hb; subst b.
    exists i, r. split; [|split; [done|split]].
    + unfold getitem. by rewrite Hi.
    + intros j rj Hj. apply (Hle j). by rewrite list_lookup_fmap, Hj.
    + intros j rj Hji Hj. apply (Hlt j); [done|].
      by rewrite list_lookup_fmap, Hj.
  - destruct runs as [|r0 runs']; [simpl in Hlen; lia|discriminate].
Qed.

End RestartsEdges.

(** ** The library calls a run can make *)

(** [logs P m]: every library call that [m] appends to the log satisfies
    [P]. *)
Definition logs (P : op -> Prop) {A} (m : M A) : Prop :=
  forall w, exists ops, oplog (m w).2 = oplog w ++ ops /\ Forall P ops.

Lemma logs_ret P {A} (a : A) : logs P (ret a).
Proof. intros w. exists []. simpl. by rewrite app_nil_r. Qed.

Lemma logs_raise P {A} (e : exn) : logs P (@raise A e).
Proof. intros w. exists []. simpl. by rewrite app_nil_r. Qed.

Lemma logs_bind P {A B} (m : M A) (k : A -> M B) :
  logs P m -> (forall a, logs P (k a)) -> logs P (bind m k).
Proof.
  intros Hm Hk w. destruct (Hm w) as (ops1 & H1 & HP1). unfold bind.
  destruct (m w) as [[a|e] w1]; simpl in *.
  - destruct (Hk a w1) as (ops2 & H2 & HP2). exists (ops1 ++ ops2).
    split; [by rewrite H2, H1, app_assoc|by apply Forall_app].
  - eauto.
Qed.

Lemma logs_bind_ret P {A B} (a : A) (k : A -> M B) :
  logs P (k a) -> logs P (bind (ret a) k).
Proof. intros H w. apply H. Qed.

Lemma logs_tick (P : op -> Prop) (o : op) : P o -> logs P (tick o).
Proof. intros Ho w. exists [o]. split; [done|]. by constructor. Qed.

Lemma logs_call (P : op -> Prop) {A} (o : op) (a : A) : P o -> logs P (call o a).
Proof. intros Ho w. exists [o]. split; [done|]. by constructor. Qed.

Lemma logs_call_opt (P : op -> Prop) {A} (o : op) (e : exn) (a : option A) :
  P o -> logs P (call_opt o e a).
Proof. intros Ho w. exists [o]. split; [by destruct a|]. by constructor. Qed.

Lemma logs_getitem P {A} (l : list A) (i : nat) : logs P (getitem l i).
Proof. unfold getitem. destruct (l !! i); [apply logs_ret|apply logs_raise]. Qed.

Lemma logs_for_in P {I S} (l : list I) (body : I -> S -> M S) (s : S) :
  (forall i s, logs P (body i s)) -> logs P (for_in l body s).
Proof.
  intros Hb. revert s. induction l as [|i l IH]; intros s; simpl.
  - apply logs_ret.
  - apply logs_bind; [apply Hb|apply IH].
Qed.

Lemma logs_for_break P {I S} (l : list I) (body : I -> S -> M (S * bool))
    (s : S) :
  (forall i s, logs P (body i s)) -> logs P (for_break l body s).
Proof.
  intros Hb. revert s. induction l as [|i l IH]; intros s; simpl.
  - apply logs_ret.
  - apply logs_bind; [apply Hb|]. intros [s1 [|]]; [apply logs_ret|apply IH].
Qed.

Lemma logs_rand {np : Numpy} (P : op -> Prop) (n m : Z) :
  P OpRand -> logs P (rand_ n m).
Proof. intros Ho w. exists [OpRand]. split; [done|]. by constructor. Qed.

Lemma logs_clock {np : Numpy} P : logs P clock_.
Proof. intros w. exists []. simpl. by rewrite app_nil_r. Qed.

(** The library calls open to a run: [pinv] only without regularisation,
    [kron] and [reshape] only with it, [qr] only with the projection, [rand]
    only with the random initialisation, [coo_matrix] and [eigsh] only
    without it, [argmin] never. *)
Definition may_call (unregularised proj random : bool) (o : op) : bool :=
  match o with
  | OpPinv => unregularised
  | OpKron | OpReshape => negb unregularised
  | OpQr => proj
  | OpRand => random
  | OpCooMatrix | OpEigsh => negb random
  | OpArgmin => false
  | _ => true
  end.

Ltac logs_step :=
  lazymatch goal with
  | |- logs _ (ret _) => apply logs_ret
  | |- logs _ (raise _) => apply logs_raise
  | |- logs _ (tick _) => apply logs_tick; reflexivity
  | |- logs _ (call _ _) => apply logs_call; reflexivity
  | |- logs _ (call_opt _ _ _) => apply logs_call_opt; reflexivity
  | |- logs _ (getitem _ _) => apply logs_getitem
  | |- logs _ (rand_ _ _) => apply logs_rand; reflexivity
  | |- logs _ clock_ => apply logs_clock
  | |- logs _ (bind _ _) => apply logs_bind; [|intros]
  | |- logs _ (for_in _ _ _) => apply logs_for_in; intros
  | |- logs _ (for_break _ _ _) => apply logs_for_break; intros
  | |- logs _ (if true then _ else _) => cbv iota
  | |- logs _ (if false then _ else _) => cbv iota
  | |- logs _ (match ?x with _ => _ end) => destruct x
  | |- logs _ _ =>
      progress unfold dot_, T_, add_, scale_, zeros_, eye_, kron_, inv_,
        pinv_, qr_, eigsh_, array_, coo_matrix_, norm_, diagonal_,
        multiply_, sum_, flatten_, reshape_, power_, number_or_raise,
        index_or_raise, squareFrobeniusNormOfSparse, updateA, updateR,
        projectSlices, solveR, als_body
  end.

Section LibraryCalls.

Context {np : Numpy}.

(** X15. What a call of [rescal] never does, whether it returns or raises:
    with [lmbda] not 0 it never calls [pinv]; with [lmbda == 0] it never forms
    a Kronecker product; without the projection it never calls [qr]; with
    [init='random'] it never calls [coo_matrix] or [eigsh], and with any other
    [init] it never draws a random matrix. *)
Theorem rescal_library_calls (X : list ndarray) (rank : Z)
    (kwargs : gmap string pyval) (w : world) (lmbda : Q) :
  py_number (kwarg "lmbda" DEF_LMBDA kwargs) = Some lmbda ->
  exists ops,
    oplog (rescal X rank kwargs w).2 = oplog w ++ ops
    /\ Forall (fun o =>
         may_call (Qeq_bool lmbda 0)
           (truthy (kwarg "proj" DEF_PROJ kwargs))
           (py_eq_str (kwarg "init" DEF_INIT kwargs) "random") o = true) ops.
Proof.
  intros Hlmbda. revert w.
  change (logs (fun o =>
            may_call (Qeq_bool lmbda 0)
              (truthy (kwarg "proj" DEF_PROJ kwargs))
              (py_eq_str (kwarg "init" DEF_INIT kwargs) "random") o = true)
            (rescal X rank kwargs)).
  unfold_rescal kwargs.
  destruct (negb _); [apply logs_raise|].
  apply logs_bind; [apply logs_getitem|intros X0].
  apply logs_bind; [repeat logs_step|intros _].
  apply logs_bind; [repeat logs_step|intros conv].
  unfold number_or_raise at 1. rewrite Hlmbda. apply logs_bind_ret.
  unfold als_body, solveR, updateR.
  destruct (Qeq_bool lmbda 0), (truthy (kwarg "proj" DEF_PROJ kwargs)),
    (py_eq_str (kwarg "init" DEF_INIT kwargs) "random");
    repeat logs_step.
Qed.

End LibraryCalls.

(** * The script at the end of the module (lines 209-244)

    The script reads the number of entities from [./data/entity-ids], builds
    one sparse slice from each pair of files [*-rows] / [*-cols] of [./data]
    and factorises the tensor with [lmbda = 0.1].  The file system is the
    record [datadir]; [loadtxt], [atleast_1d] and the constructor of
    [coo_matrix] from index arrays are the fields of the interface
    [Loadtxt]. *)

(** ** File names *)

(** [s.replace(old, new)] for a non-empty [old]: the occurrences of [old] are
    replaced from left to right, without overlap.  [skip] counts the
    characters of the occurrence just replaced that are still to be
    dropped. *)
Fixpoint replace_skip (old new : string) (skip : nat) (s : string) : string :=
  match s with
  | EmptyString => EmptyString
  | String c s' =>
      match skip with
      | S k => replace_skip old new k s'
      | O =>
          if String.prefix old s
          then String.append new
                 (replace_skip old new (String.length old - 1) s')
          else String c (replace_skip old new 0 s')
      end
  end.

Definition str_replace (old new s : string) : string := replace_skip old new 0 s.

(** [fnmatch.fnmatch(name, '*' + suffix)] where the suffix has no wildcard
    (file names are compared as they are, as on POSIX systems): [name] ends
    with the suffix. *)
Fixpoint ends_with (suffix name : string) : bool :=
  match name with
  | EmptyString => String.eqb suffix EmptyString
  | String c name' => String.eqb suffix name || ends_with suffix name'
  end.


(** ** The script *)

Class Loadtxt {np : Numpy} : Type := {
  (** the arrays of [int32] that [loadtxt] returns *)
  intarray : Type;
  (** [a.size] *)
  arr_size : intarray -> Z;
  (** [np.atleast_1d(a)] *)
  atleast_1d : intarray -> intarray;
  (** [coo_matrix((ones(row.size), (row, col)), shape=(dim, dim),
      dtype=np.uint8)]; [None] when scipy raises *)
  coo_entries : intarray -> intarray -> Z -> option ndarray
}.

(** What the script finds on disk. *)
Record datadir {np : Numpy} {io : Loadtxt} : Type := DataDir {
  (** the lines of [./data/entity-ids]; [None] when it cannot be opened *)
  entity_ids : option (list string);
  (** [os.listdir('./data')] *)
  listdir : list string;
  (** [loadtxt(path, dtype=np.int32)]; [None] when it raises *)
  loadtxt : string -> option intarray
}.

Inductive script_exn : Type :=
  | OpenError (path : string)
  | LoadError (path : string)
  | CooError
  | Uncaught (e : exn).

(** The lines the script prints. *)
Inductive output : Type :=
  | OutEntities (dim : Z)
  | OutSlices (n : Z)
  | OutText (s : string)
  | OutFloat (q : Q)
  | OutInt (z : Z).

Section Script.

Context {np : Numpy} {io : Loadtxt}.

(** [loadtxt(path)], made one-dimensional when it holds one number. *)
Definition load_indices (fs : datadir) (path : string)
    : script_exn + intarray :=
  match loadtxt fs path with
  | None => inl (LoadError path)
  | Some a => inr (if (arr_size a =? 1)%Z then atleast_1d a else a)
  end.

(** The slice of one [*-rows] file, lines 225-231. *)
Definition load_slice (fs : datadir) (dim : Z) (file : string)
    : script_exn + ndarray :=
  match load_indices fs (String.append "./data/" file) with
  | inl e => inl e
  | inr row =>
      match load_indices fs
              (String.append "./data/" (str_replace "rows" "cols" file)) with
      | inl e => inl e
      | inr col =>
          match coo_entries row col dim with
          | None => inl CooError
          | Some A => inr A
          end
      end
  end.

(** The loop over the directory, lines 222-232. *)
Fixpoint load_slices (fs : datadir) (dim : Z) (names : list string)
    (numSlices : Z) (X : list ndarray) : script_exn + (Z * list ndarray) :=
  match names with
  | [] => inr (numSlices, X)
  | file :: names' =>
      if ends_with "-rows" file then
        match load_slice fs dim file with
        | inl e => inl e
        | inr A => load_slices fs dim names' (numSlices + 1)%Z (X ++ [A])
        end
      else load_slices fs dim names' numSlices X
  end.

(** [rescal(X, None, **kwargs)]: without [--latent] the rank is [None],
    which the [%d] of the configuration line (line 109) refuses. *)
Definition rescal_without_rank (X : list ndarray) (kwargs : gmap string pyval)
    : M result :=
  if negb (Nat.eqb (size (leftover kwargs)) 0) then
    raise (ValueError "Unknown keywords")
  else
    _ <- getitem X 0 ;;
    raise (TypeError "a number is required").

(** The script; [latent] is the value of [--latent].  It returns what was
    printed and either the exception that ended the run or the matrix saved
    to [latent-embeddings.csv]. *)
Definition main (fs : datadir) (latent : option Z) (w : world)
    : (list output * (script_exn + ndarray)) * world :=
  match entity_ids fs with
  | None => (([], inl (OpenError "./data/entity-ids")), w)
  | Some lines =>
      let dim := Z.of_nat (length lines) in
      let out := [OutEntities dim] in
      match load_slices fs dim (listdir fs) 0 [] with
      | inl e => ((out, inl e), w)
      | inr (numSlices, X) =>
          let out := out ++ [OutSlices numSlices] in
          let kwargs := {[ "lmbda" := PFloat (1 # 10) ]} in
          match (match latent with
                 | Some rank => rescal X rank kwargs
                 | None => rescal_without_rank X kwargs
                 end) w with
          | (Raise e, w') => ((out, inl (Uncaught e)), w')
          | (Ok result, w') =>
              ((out ++ [OutText "Objective function value:";
                        OutFloat (res_f result);
                        OutText "# of iterations:";
                        OutInt (res_iter result)],
                inr (res_A result)), w')
          end
      end
  end.

End Script.

(** ** File names: facts *)















Section ScriptFacts.

Context {np : Numpy} {io : Loadtxt}.

Lemma load_slices_acc (fs : datadir) (dim : Z) (names : list string)
    (n : Z) (X : list ndarray) :
  match load_slices fs dim names n X with
  | inr (n', X') =>
      exists Xs,
        X' = X ++ Xs
        /\ n' = (n + Z.of_nat (length Xs))%Z
        /\ Forall2 (fun file A => load_slice fs dim file = inr A)
             (List.filter (ends_with "-rows") names) Xs
  | inl e =>
      exists file,
        In file names /\ ends_with "-rows" file = true
        /\ load_slice fs dim file = inl e
  end.
Proof.
  revert n X. induction names as [|file names IH]; intros n X.
  - exists []. rewrite app_nil_r. split; [done|]. split; [simpl; lia|].
    constructor.
  - cbn [load_slices List.filter].
    destruct (ends_with "-rows" file) eqn:Hfile.
    + destruct (load_slice fs dim file) as [e|A] eqn:Hload.
      * exists file. split; [by left|]. by split.
      * specialize (IH (n + 1)%Z (X ++ [A])).
        destruct (load_slices fs dim names (n + 1) (X ++ [A])) as [e|[n' X']].
        -- destruct IH as (f & Hin & Hf & He). exists f.
           split; [by right|]. by split.
        -- destruct IH as (Xs & -> & -> & HF). exists (A :: Xs).
           rewrite <- app_assoc. split; [done|].
           split; [simpl length; lia|]. by constructor.
    + specialize (IH n X).
      destruct (load_slices fs dim names n X) as [e|[n' X']]; [|done].
      destruct IH as (f & Hin & Hf & He). exists f.
      split; [by right|]. by split.
Qed.

(** X17. The loop over [./data] builds one slice for each name of the
    listing that ends in [-rows], in the order of the listing, and counts
    them; the other names are skipped.  When it raises, it is at one of those
    names. *)
Theorem load_slices_rows_files (fs : datadir) (dim : Z) :
  match load_slices fs dim (listdir fs) 0 [] with
  | inr (numSlices, X) =>
      numSlices = Z.of_nat (length X)
      /\ Forall2 (fun file A => load_slice fs dim file = inr A)
           (List.filter (ends_with "-rows") (listdir fs)) X
  | inl e =>
      exists file,
        In file (listdir fs) /\ ends_with "-rows" file = true
        /\ load_slice fs dim file = inl e
  end.
Proof.
  pose proof (load_slices_acc fs dim (listdir fs) 0 []) as H.
  destruct (load_slices fs dim (listdir fs) 0 []) as [e|[n X]]; [done|].
  destruct H as (Xs & -> & -> & HF). split; [simpl; lia|done].
Qed.

Lemma load_slices_none (fs : datadir) (dim : Z) (names : list string)
    (n : Z) (X : list ndarray) :
  (forall file, In file names -> ends_with "-rows" file = false) ->
  load_slices fs dim names n X = inr (n, X).
Proof.
  induction names as [|file names IH]; intros H; [done|].
  cbn [load_slices]. rewrite (H file) by (by left).
  apply IH. intros f Hf. apply H. by right.
Qed.

Lemma recognised_lmbda (v : pyval) (k : string) :
  is_Some (({[ "lmbda" := v ]} : gmap string pyval) !! k) -> k ∈ recognised.
Proof.
  intros [u Hk]. apply lookup_singleton_Some in Hk as [<- _].
  unfold recognised. rewrite !elem_of_cons. auto 6.
Qed.

(** X18. When no name of [./data] ends in [-rows] the script prints the
    number of entities and [0] slices, and ends in the [IndexError] of [X[0]]
    inside [rescal], with or without [--latent]. *)
Theorem main_without_slices (fs : datadir) (latent : option Z) (w : world)
    (lines : list string) :
  entity_ids fs = Some lines ->
  (forall file, In file (listdir fs) -> ends_with "-rows" file = false) ->
  main fs latent w
  = (([OutEntities (Z.of_nat (length lines)); OutSlices 0],
      inl (Uncaught IndexError)), w).
Proof.
  intros Hids Hnone. unfold main. rewrite Hids.
  rewrite (load_slices_none _ _ _ _ _ Hnone).
  destruct latent as [rank|].
  - unfold_rescal ({[ "lmbda" := PFloat (1 # 10) ]} : gmap string pyval).
    rewrite (leftover_recognised _ (recognised_lmbda _)). reflexivity.
  - unfold rescal_without_rank.
    rewrite (leftover_recognised _ (recognised_lmbda _)). reflexivity.
Qed.


End ScriptFacts.

(** * The further properties on 1x1 matrices *)

Definition zero : @ndarray Scalar := Q2Qc 0.

Lemma updateA_missing_core_witness :
  @updateA Scalar [one; two] half [one] 0 w0
  = (Raise IndexError,
     addlog w0 ([OpZeros; OpZeros; OpTranspose; OpDot]
                ++ concat (replicate 1 updateA_pass_ops))).
Proof.
  apply (@updateA_missing_core Scalar [one; two] half [one] 0 w0).
  simpl. lia.
Defined.

Lemma updateA_singular_system_witness :
  exists ops,
    @updateA Scalar [one] half [zero] 0 w0 = (Raise LinAlgError, addlog w0 ops).
Proof.
  eexists.
  apply (@updateA_singular_system Scalar [one] half [zero] 0 w0).
  - simpl. lia.
  - vm_compute. reflexivity.
Defined.

(** [lmbda = -1/16] with [A = 1/2]: the Kronecker system is 0. *)
Lemma updateR_nonzero_witness :
  (@updateR Scalar [one; two] half (-1 # 16) w0).1 = Raise LinAlgError.
Proof.
  destruct (@updateR_nonzero Scalar [one; two] half (-1 # 16) w0)
    as (ops & _ & _ & _ & _ & H); [discriminate|].
  destruct (@inv Scalar (kron_system half (-1 # 16))) as [tmp|] eqn:Hinv;
    [vm_compute in Hinv; discriminate|].
  exact (proj1 H).
Defined.

Lemma rescal_core_count_witness :
  exists r w',
    @rescal Scalar [one; two] 1 kw_run w0 = (Ok r, w')
    /\ length (res_R r) = 2%nat.
Proof.
  destruct (run_ok_inv (@rescal Scalar [one; two] 1 kw_run w0) (fun _ => true))
    as (r & w' & Hrun & _); [vm_compute; reflexivity|].
  exists r, w'. split; [exact Hrun|].
  exact (proj1 (@rescal_core_count Scalar [one; two] 1 kw_run w0 r w' Hrun)).
Defined.

Lemma rescal_objective_witness :
  exists r w',
    @rescal Scalar [one; two] 1 kw_run w0 = (Ok r, w')
    /\ res_f r = objective [one; two] (res_A r) (res_R r) 0.
Proof.
  destruct (run_ok_inv (@rescal Scalar [one; two] 1 kw_run w0) (fun _ => true))
    as (r & w' & Hrun & _); [vm_compute; reflexivity|].
  exists r, w'. split; [exact Hrun|].
  destruct (@rescal_objective Scalar [one; two] 1 kw_run w0 r w' Hrun)
    as (lmbda & Hl & Hf).
  vm_compute in Hl. inversion Hl; subst lmbda. exact Hf.
Defined.

Lemma rescal_clock_and_generator_witness :
  exists r w',
    @rescal Scalar [one; two] 1 kw_run w0 = (Ok r, w')
    /\ clock_reads w' = (2 * Z.to_nat (res_iter r))%nat
    /\ draws w' = 1%nat.
Proof.
  destruct (run_ok_inv (@rescal Scalar [one; two] 1 kw_run w0) (fun _ => true))
    as (r & w' & Hrun & _); [vm_compute; reflexivity|].
  exists r, w'. split; [exact Hrun|].
  destruct (@rescal_clock_and_generator Scalar [one; two] 1 kw_run w0 r w' Hrun)
    as (Hc & _ & Hd).
  split; [exact Hc|exact Hd].
Defined.

(** The options of [rescal(X, 1, init='random', maxIter=4, conv=0)]. *)
Definition kw_no_conv : gmap string pyval :=
  {[ "init" := PStr "random"; "maxIter" := PInt 4; "conv" := PInt 0 ]}.

Lemma rescal_conv_nonpositive_witness :
  exists r w',
    @rescal Scalar [one; two] 1 kw_no_conv w0 = (Ok r, w')
    /\ py_index (kwarg "maxIter" DEF_MAXITER kw_no_conv) = Some (res_iter r).
Proof.
  destruct (run_ok_inv (@rescal Scalar [one; two] 1 kw_no_conv w0)
              (fun _ => true))
    as (r & w' & Hrun & _); [vm_compute; reflexivity|].
  exists r, w'. split; [exact Hrun|].
  apply (@rescal_conv_nonpositive Scalar [one; two] 1 kw_no_conv w0 r w' 0).
  - reflexivity.
  - apply Qle_refl.
  - exact Hrun.
Defined.

Lemma recognised_singleton (key : string) (v : pyval) (k : string) :
  key ∈ recognised -> is_Some (({[ key := v ]} : gmap string pyval) !! k) ->
  k ∈ recognised.
Proof. intros Hkey [u Hk]. by apply lookup_singleton_Some in Hk as [<- _]. Qed.

Lemma recognised_conv : "conv" ∈ recognised.
Proof. unfold recognised. rewrite !elem_of_cons. auto 6. Qed.

Lemma recognised_empty (k : string) :
  is_Some ((∅ : gmap string pyval) !! k) -> k ∈ recognised.
Proof. intros [v Hk]. by rewrite lookup_empty in Hk. Qed.

Lemma rescal_non_numeric_option_witness :
  @rescal Scalar [one] 1 {[ "conv" := PStr "1e-5" ]} w0
  = (Raise (TypeError "a number is required"), w0).
Proof.
  apply (@rescal_non_numeric_option Scalar [one] 1 {[ "conv" := PStr "1e-5" ]} w0).
  - intros k.
    apply (recognised_singleton "conv" (PStr "1e-5") k recognised_conv).
  - discriminate.
  - right. left. reflexivity.
Defined.

Lemma rescal_nvecs_eigsh_failure_witness :
  @rescal Scalar [one; two] 1 ∅ w0
  = (Raise EigshError,
     addlog w0 (norm_ops [one; two] ++ nvecs_ops [one; two])).
Proof.
  apply (@rescal_nvecs_eigsh_failure Scalar [one; two] one 1 ∅ w0).
  - exact recognised_empty.
  - reflexivity.
  - reflexivity.
  - eexists; reflexivity.
  - eexists; reflexivity.
  - eexists; reflexivity.
  - reflexivity.
Defined.

Lemma restarts_nonpositive_witness :
  @rescal_with_random_restarts Scalar [one] 1 0 ∅ w0
  = (Raise (ValueError "attempt to get argmin of an empty sequence"),
     addlog w0 [OpArgmin]).
Proof.
  apply (@restarts_nonpositive Scalar [one] 1 0 ∅ w0). lia.
Defined.

Lemma restarts_init_conflict_witness :
  @rescal_with_random_restarts Scalar [one] 1 10 {[ "init" := PStr "nvecs" ]} w0
  = (Raise (TypeError "multiple values for keyword argument 'init'"), w0).
Proof.
  apply (@restarts_init_conflict Scalar [one] 1 10 {[ "init" := PStr "nvecs" ]} w0).
  - lia.
  - eexists. reflexivity.
Defined.

(** The options of [rescal_with_random_restarts(X, 1, 2, maxIter=1)]. *)
Definition kw_one_pass : gmap string pyval := {[ "maxIter" := PInt 1 ]}.

(** A run that raises, read off from its evaluation. *)
Lemma run_raise_inv {A} (x : res A * world) (P : exn -> bool) :
  match x.1 with Ok _ => false | Raise e => P e end = true ->
  exists e w, x = (Raise e, w) /\ P e = true.
Proof. destruct x as [[a|e] w]; simpl; [discriminate|eauto]. Qed.

(** On the slice [[0]] the first run already fails: the system of the factor
    solver is singular. *)
Lemma restarts_failure_propagates_witness :
  exists we,
    @rescal_with_random_restarts Scalar [zero] 1 3 kw_one_pass w0
    = (Raise LinAlgError, we).
Proof.
  destruct (run_raise_inv
              (@rescal Scalar [zero] 1
                 (<["init" := PStr "random"]> kw_one_pass) w0)
              (fun e => match e with LinAlgError => true | _ => false end))
    as (e & we & Hrun & He); [vm_compute; reflexivity|].
  destruct e; try discriminate He.
  exists we.
  apply (@restarts_failure_propagates Scalar [zero] 1 3 kw_one_pass 0 w0 [] w0
           LinAlgError we).
  - reflexivity.
  - simpl. lia.
  - constructor.
  - exact Hrun.
Defined.

Lemma restarts_returns_witness :
  exists i r w',
    @rescal_with_random_restarts Scalar [one; two] 1 2 kw_one_pass w0
    = (Ok r, w')
    /\ (i < 2)%nat.
Proof.
  destruct (run_ok_inv
              (@rescal Scalar [one; two] 1
                 (<["init" := PStr "random"]> kw_one_pass) w0)
              (fun _ => true))
    as (r1 & w1 & Hrun1 & _); [vm_compute; reflexivity|].
  destruct (run_ok_inv
              (@rescal Scalar [one; two] 1
                 (<["init" := PStr "random"]> kw_one_pass) w1)
              (fun _ => true))
    as (r2 & w2 & Hrun2 & _).
  { assert (Hw : w1 = (@rescal Scalar [one; two] 1
                         (<["init" := PStr "random"]> kw_one_pass) w0).2)
      by (by rewrite Hrun1).
    rewrite Hw. vm_compute. reflexivity. }
  destruct (@restarts_returns Scalar [one; two] 1 2 kw_one_pass w0 [r1; r2] w2)
    as (i & r & Hret & Hi & _).
  - reflexivity.
  - lia.
  - econstructor; [exact Hrun1|]. econstructor; [exact Hrun2|]. constructor.
  - exists i, r, (addlog w2 [OpArgmin]). split; [exact Hret|].
    apply lookup_lt_Some in Hi. exact Hi.
Defined.

Lemma rescal_library_calls_witness :
  exists ops,
    oplog (@rescal Scalar [one; two] 1 kw_run w0).2 = oplog w0 ++ ops
    /\ Forall (fun o => may_call true true true o = true) ops.
Proof.
  destruct (@rescal_library_calls Scalar [one; two] 1 kw_run w0 0)
    as (ops & Hlog & Hops); [reflexivity|].
  exists ops. split; [exact Hlog|exact Hops].
Defined.

(** * The script on 1x1 matrices *)


(** Index arrays as lists; the 1x1 slice holds the number of the pairs
    [(row, col)], which [coo_matrix] adds up. *)
Definition ListIO (np : Numpy) (entry : Z -> @ndarray np) : @Loadtxt np := {|
  intarray := list Z;
  arr_size := fun a => Z.of_nat (length a);
  atleast_1d := fun a => a;
  coo_entries := fun row col dim =>
    if Nat.eqb (length row) (length col)
    then Some (entry (Z.of_nat (length row)))
    else None
|}.


(** A directory without any relation. *)
Definition no_relation (np : Numpy) (entry : Z -> @ndarray np)
    : @datadir np (ListIO np entry) :=
  @DataDir np (ListIO np entry)
    (Some ["e0"; "e1"]) ["entity-ids"; "likes-cols"]
    (fun _ => None).

Definition entry_of (z : Z) : Qc := Q2Qc (inject_Z z).

Lemma main_without_slices_witness :
  @main Scalar (ListIO Scalar entry_of) (no_relation Scalar entry_of)
    (Some 2%Z) w0
  = (([OutEntities 2; OutSlices 0], inl (Uncaught IndexError)), w0).
Proof.
  apply (@main_without_slices Scalar (ListIO Scalar entry_of)
           (no_relation Scalar entry_of) (Some 2%Z) w0 ["e0"; "e1"]).
  - reflexivity.
  - intros file [<-|[<-|[]]]; reflexivity.
Defined.

